(** * Prompt Mixer: the selection / free-text reconciliation core of app.js

    A shallow embedding of the core helpers of [src/app.js] (token matcher,
    text mutators, reconciler, per-category output store, undo stack and
    history snapshots), followed by the properties the specification states
    about them.

    Modelling conventions.
    - A JavaScript string is the list of its UTF-16 code units ([N]).
    - [String.prototype.trim] and the regular-expression class "\s" use the
      same character set (ECMAScript WhiteSpace and LineTerminator).
    - The regular expressions of the source are built without flags other
      than [g]; they are embedded as terms of a small pattern type and run by
      a backtracking matcher that follows the ECMAScript priorities
      (leftmost start, first alternative first, greedy quantifiers).
    - [escapeRegExp(opt)] spliced into a pattern denotes the literal code-unit
      sequence [opt]; it is embedded as [Lit opt].
    - The clock ([new Date()]) and [Math.random()] are inputs. *)

From Stdlib Require Import NArith Ascii Decimal DecimalNat.
From stdpp Require Import base list strings sorting gmap.

Set Default Proof Using "Type".

(** ** JavaScript strings *)

Module Str.

Abbreviation char := N (only parsing).
Abbreviation str := (list N) (only parsing).

(** ASCII literal of the development as a list of code units. *)
Fixpoint lit (s : string) : str :=
  match s with
  | EmptyString => []
  | String a r => N_of_ascii a :: lit r
  end.

Definition comma : char := 44%N.
Definition space : char := 32%N.

(** "\s": WhiteSpace and LineTerminator code units. *)
Definition is_space (c : char) : bool :=
  ((9 <=? c) && (c <=? 13) || (c =? 32) || (c =? 160) || (c =? 5760)
   || (8192 <=? c) && (c <=? 8202) || (c =? 8232) || (c =? 8233)
   || (c =? 8239) || (c =? 8287) || (c =? 12288) || (c =? 65279))%N.

Definition is_comma (c : char) : bool := (c =? comma)%N.

Fixpoint trimStart (s : str) : str :=
  match s with
  | [] => []
  | c :: r => if is_space c then trimStart r else s
  end.

Definition trimEnd (s : str) : str := rev (trimStart (rev s)).

Definition trim (s : str) : str := trimEnd (trimStart s).

(** Truthiness of a string: [!s] is [negb (truthy s)]. *)
Definition truthy (s : str) : bool :=
  match s with [] => false | _ => true end.

Definition str_eqb (a b : str) : bool := bool_decide (a = b).

End Str.
Export Str.

(** ** Regular expressions *)

Module RegExp.

(** The pattern forms that occur in app.js. [AtLeast n p] is the greedy
    quantifier "{n,}" over a character class: the star of the white-space class
    is [AtLeast 0 is_space], the plus of the comma is [AtLeast 1 is_comma]. *)
Inductive re : Type :=
| Bos                                   (* ^ *)
| Eos                                   (* $ *)
| Cls (p : char -> bool)                (* one character of a class *)
| Lit (l : str)                         (* an escaped literal *)
| Seq (a b : re)
| Alt (a b : re)                        (* a|b *)
| Opt (a : re)                          (* (?:a)? *)
| AtLeast (n : nat) (p : char -> bool)
| Look (a : re).                        (* (?=a) *)

(** A continuation receives the current index and the rest of the input and
    returns the index at which the whole match ends. *)
Definition cont := nat -> str -> option nat.

Fixpoint eat (l s : str) : option str :=
  match l, s with
  | [], _ => Some s
  | a :: l', b :: s' => if (a =? b)%N then eat l' s' else None
  | _ :: _, [] => None
  end.

(** Greedy star of a class: take the longest run first, give characters back one at a
    time while the continuation fails. *)
Fixpoint star (p : char -> bool) (i : nat) (s : str) (k : cont) : option nat :=
  match s with
  | c :: s' =>
      if p c then
        match star p (S i) s' k with
        | Some e => Some e
        | None => k i s
        end
      else k i s
  | [] => k i s
  end.

Fixpoint atleast (n : nat) (p : char -> bool) (i : nat) (s : str) (k : cont)
  : option nat :=
  match n with
  | 0 => star p i s k
  | S n' =>
      match s with
      | c :: s' => if p c then atleast n' p (S i) s' k else None
      | [] => None
      end
  end.

Definition accept : cont := fun j _ => Some j.

(** [m r i s k]: match [r] at index [i], where [s] is the input from [i]
    on, then continue with [k]. *)
Fixpoint m (r : re) (i : nat) (s : str) (k : cont) : option nat :=
  match r with
  | Bos => if i =? 0 then k i s else None
  | Eos => match s with [] => k i s | _ :: _ => None end
  | Cls p =>
      match s with
      | c :: s' => if p c then k (S i) s' else None
      | [] => None
      end
  | Lit l =>
      match eat l s with
      | Some s' => k (i + length l) s'
      | None => None
      end
  | Seq a b => m a i s (fun j s' => m b j s' k)
  | Alt a b =>
      match m a i s k with
      | Some e => Some e
      | None => m b i s k
      end
  | Opt a =>
      match m a i s k with
      | Some e => Some e
      | None => k i s
      end
  | AtLeast n p => atleast n p i s k
  | Look a =>
      match m a i s accept with
      | Some _ => k i s
      | None => None
      end
  end.

(** Match at index [i]: the end index of the match. *)
Definition matchAt (r : re) (i : nat) (s : str) : option nat := m r i s accept.

(** [RegExp.prototype.exec] from index [i]: start index and length of the
    leftmost match, trying every index up to and including the end. *)
Fixpoint searchFrom (r : re) (i : nat) (s : str) : option (nat * nat) :=
  match matchAt r i s with
  | Some e => Some (i, e - i)
  | None =>
      match s with
      | [] => None
      | _ :: s' => searchFrom r (S i) s'
      end
  end.

Definition search (r : re) (s : str) : option (nat * nat) := searchFrom r 0 s.

(** [r.test(s)] *)
Definition test (r : re) (s : str) : bool :=
  match search r s with Some _ => true | None => false end.

(** [s.replace(r, by)] for [r] without the [g] flag. *)
Definition replace (r : re) (by_ : str) (s : str) : str :=
  match search r s with
  | Some (i, n) => take i s ++ by_ ++ drop (i + n) s
  | None => s
  end.

(** [s.replace(r, by)] for [r] with the [g] flag: [s] is the input from
    index [i] on. After an empty match the next search starts one code unit
    further. Every round consumes at least one code unit, so [S (length s)]
    rounds are enough (see [replaceAllFrom_fuel]). *)
Fixpoint replaceAllFrom (fuel : nat) (r : re) (by_ : str) (i : nat) (s : str)
  : str :=
  match fuel with
  | 0 => s
  | S fuel' =>
      match searchFrom r i s with
      | None => s
      | Some (j, 0) =>
          take (j - i) s ++ by_
            ++ match drop (j - i) s with
               | [] => []
               | c :: s' => c :: replaceAllFrom fuel' r by_ (S j) s'
               end
      | Some (j, n) =>
          take (j - i) s ++ by_
            ++ replaceAllFrom fuel' r by_ (j + n) (drop (j - i + n) s)
      end
  end.

Definition replaceAll (r : re) (by_ : str) (s : str) : str :=
  replaceAllFrom (S (length s)) r by_ 0 s.

End RegExp.
Export RegExp.

(** ** Core helpers *)

Definition ws : re := AtLeast 0 is_space.           (* optional white space *)
Definition sep : re := Seq (Cls is_comma) ws.        (* separator: comma, optional white space *)

(** The pattern of [tokenRegex]: the start of the text or a separator, then
    the option, then (looked ahead) optional white space and a comma or the end
    of the text. *)
Definition tokenRegex (opt : str) : re :=
  Seq (Alt Bos sep)
      (Seq (Lit opt) (Look (Seq ws (Alt (Cls is_comma) Eos)))).

Definition hasOptionToken (text opt : str) : bool :=
  let t := trim text in
  if negb (truthy t) || negb (truthy opt) then false
  else test (tokenRegex opt) t.

(** A comma and optional white space at the end of the text. *)
Definition trailingComma : re := Seq (Cls is_comma) (Seq ws Eos).

Definition addOptionToken (text opt : str) : str :=
  let t := trim text in
  if negb (truthy opt) then t
  else if hasOptionToken t opt then t
  else if negb (truthy t) then opt
  else
    let base := trim (replace trailingComma [] t) in
    if truthy base then base ++ [comma; space] ++ opt else opt.

(** Step 1 of [removeOptionToken]: the option at the start of the text, then
    optional white space and an optional separator. *)
Definition atStart (opt : str) : re :=
  Seq Bos (Seq (Lit opt) (Seq ws (Opt sep))).

(** Step 2 of [removeOptionToken] (flag g): a separator, then the option. *)
Definition elsewhere (opt : str) : re := Seq sep (Lit opt).

(** The tidy patterns: a leading separator, a trailing separator, a doubled
    separator (flag g), a run of two or more white-space characters (flag g). *)
Definition leadingSep : re := Seq Bos (Seq ws sep).
Definition trailingSep : re := Seq ws (Seq sep Eos).
Definition doubledSep : re := Seq sep (AtLeast 1 is_comma).
Definition spaceRun : re := AtLeast 2 is_space.

Definition removeOptionToken (text opt : str) : str :=
  let t := trim text in
  if negb (truthy t) || negb (truthy opt) then t
  else
    (* 1) remove at start (and eat following separator if present) *)
    let t := replace (atStart opt) [] t in
    (* 2) remove elsewhere (eat the leading separator) *)
    let t := replaceAll (elsewhere opt) [] t in
    (* tidy *)
    let t := replace trailingSep [] (replace leadingSep [] t) in
    let t := replaceAll doubledSep [comma; space] t in
    trim (replaceAll spaceRun [space] t).

(** ** Categories and their outputs *)

Module Category.
Record t := mk { id : str; name : str; options : list str; selected : list nat }.
End Category.

(** An entry of [outputsByCatId]: "{ text, dirty, undo:[], lastValue }". *)
Module Output.
Record t := mk { text : str; dirty : bool; undo : list str; lastValue : str }.
End Output.

Abbreviation outputs := (gmap (list N) Output.t) (only parsing).

(** The two globals [state] (its category list) and [outputsByCatId]. *)
Record State := mkState {
  categories : list Category.t;
  outputsByCatId : gmap (list N) Output.t
}.

Definition emptyOutput : Output.t := Output.mk [] false [] [].

Definition ensureOutputEntry (cat : Category.t) (outs : outputs) : outputs :=
  match outs !! Category.id cat with
  | Some _ => outs
  | None => <[Category.id cat := emptyOutput]> outs
  end.

(** [push] then [shift] when the stack is longer than 120. *)
Definition pushBounded (u : list str) (v : str) : list str :=
  let u := u ++ [v] in
  if 120 <? length u then tail u else u.

Definition pushUndo (catId : str) (prevText : str) (outs : outputs) : outputs :=
  match outs !! catId with
  | None => outs
  | Some out =>
      <[catId := Output.mk (Output.text out) (Output.dirty out)
                   (pushBounded (Output.undo out) prevText)
                   (Output.lastValue out)]> outs
  end.

(** The [forEach] of [reconcileSelectionFromText], from index [i] on. *)
Fixpoint selectedFrom (t : str) (opts : list str) (i : nat) : list nat :=
  match opts with
  | [] => []
  | opt :: rest =>
      if truthy opt && hasOptionToken t opt
      then i :: selectedFrom t rest (S i)
      else selectedFrom t rest (S i)
  end.

Definition reconcileSelectionFromText (cat : Category.t) (text : str)
  : Category.t :=
  let t := trim text in
  Category.mk (Category.id cat) (Category.name cat) (Category.options cat)
    (selectedFrom t (Category.options cat) 0).

Definition isAllSelected (cat : Category.t) : bool :=
  (length (Category.selected cat) =? length (Category.options cat))
  && (0 <? length (Category.options cat)).

(** The three assignments [out.text = next; out.lastValue = next;
    out.dirty = true] on the entry of [catId]. *)
Definition commitText (catId : str) (next : str) (outs : outputs) : outputs :=
  match outs !! catId with
  | None => outs
  | Some out => <[catId := Output.mk next true (Output.undo out) next]> outs
  end.

Definition outText (catId : str) (outs : outputs) : str :=
  match outs !! catId with
  | Some out => Output.text out
  | None => []
  end.

Definition applyLeftToggle (cat : Category.t) (idx : nat) (checked : bool)
    (outs : outputs) : Category.t * outputs :=
  let outs := ensureOutputEntry cat outs in
  match Category.options cat !! idx with
  | None => (cat, outs)
  | Some opt =>
      if negb (truthy opt) then (cat, outs)
      else
        let prev := outText (Category.id cat) outs in
        let next := if checked then addOptionToken prev opt
                    else removeOptionToken prev opt in
        let outs := if str_eqb next prev then outs
                    else pushUndo (Category.id cat) prev outs in
        let outs := commitText (Category.id cat) next outs in
        (reconcileSelectionFromText cat next, outs)
  end.

Definition applyLeftAllClear (cat : Category.t) (selectAll : bool)
    (outs : outputs) : Category.t * outputs :=
  let outs := ensureOutputEntry cat outs in
  let prev := outText (Category.id cat) outs in
  let opts := filter (fun s => truthy s = true) (Category.options cat) in
  let next :=
    if selectAll then foldl addOptionToken prev opts
    else foldl removeOptionToken prev opts in
  let outs := if str_eqb next prev then outs
              else pushUndo (Category.id cat) prev outs in
  let outs := commitText (Category.id cat) next outs in
  (reconcileSelectionFromText cat next, outs).

(** ** Handlers

    A handler looks its category up with [find] and mutates the object it
    found; [putCat] writes the result back at that position. The listener of
    a textarea holds the category object it was built for: with unique ids
    (as the data model has them) that is the category [find] returns.
    Rendering and [persist] only read the state (apart from creating missing
    output entries, which read as the empty text) and are left out. *)

Definition hasId (catId : str) (c : Category.t) : bool :=
  str_eqb (Category.id c) catId.

Fixpoint findCat (catId : str) (cats : list Category.t) : option Category.t :=
  match cats with
  | [] => None
  | c :: r => if hasId catId c then Some c else findCat catId r
  end.

Fixpoint putCat (catId : str) (c' : Category.t) (cats : list Category.t)
  : list Category.t :=
  match cats with
  | [] => []
  | c :: r => if hasId catId c then c' :: r else c :: putCat catId c' r
  end.

Definition toggleOption (catId : str) (idx : nat) (checked : bool) (st : State)
  : State :=
  match findCat catId (categories st) with
  | None => st
  | Some cat =>
      let '(cat', outs) := applyLeftToggle cat idx checked (outputsByCatId st) in
      mkState (putCat catId cat' (categories st)) outs
  end.

Definition toggleAll (catId : str) (st : State) : State :=
  match findCat catId (categories st) with
  | None => st
  | Some cat =>
      if length (Category.options cat) =? 0 then st
      else
        let selectAll := negb (isAllSelected cat) in
        let '(cat', outs) := applyLeftAllClear cat selectAll (outputsByCatId st) in
        mkState (putCat catId cat' (categories st)) outs
  end.

(** The [input] listener of the textarea that [renderOutputs] builds for a
    category: [v] is [ta.value]. *)
Definition onTextareaInput (catId : str) (v : str) (st : State) : State :=
  match findCat catId (categories st) with
  | None => st
  | Some cat =>
      let outs := ensureOutputEntry cat (outputsByCatId st) in
      match outs !! catId with
      | None => st
      | Some outEntry =>
          let '(u, lastv) :=
            if str_eqb (Output.lastValue outEntry) v
            then (Output.undo outEntry, Output.lastValue outEntry)
            else (pushBounded (Output.undo outEntry) (Output.lastValue outEntry), v) in
          mkState (putCat catId (reconcileSelectionFromText cat v) (categories st))
                  (<[catId := Output.mk v true u lastv]> outs)
      end
  end.

Definition clearOutput (catId : str) (st : State) : State :=
  match findCat catId (categories st), outputsByCatId st !! catId with
  | Some cat, Some out =>
      let outs := pushUndo catId (Output.text out) (outputsByCatId st) in
      let outs := commitText catId [] outs in
      mkState (putCat catId (reconcileSelectionFromText cat []) (categories st)) outs
  | _, _ => st
  end.

Definition undoOutput (catId : str) (st : State) : State :=
  match findCat catId (categories st), outputsByCatId st !! catId with
  | Some cat, Some out =>
      match rev (Output.undo out) with
      | [] => st
      | prev :: rest =>
          mkState
            (putCat catId (reconcileSelectionFromText cat prev) (categories st))
            (<[catId := Output.mk prev true (rev rest) prev]> (outputsByCatId st))
      end
  | _, _ => st
  end.

(** [s.split(/\r?\n/)]: [cur] holds the current line, reversed. *)
Fixpoint splitLines (s : str) (cur : str) : list str :=
  match s with
  | [] => [rev cur]
  | 13%N :: 10%N :: r => rev cur :: splitLines r []
  | 10%N :: r => rev cur :: splitLines r []
  | c :: r => splitLines r (c :: cur)
  end.

(** [nameValue] and [linesValue] are the values of the two modal fields. *)
Definition saveBulkModal (modalCatId : str) (nameValue linesValue : str)
    (st : State) : State :=
  match findCat modalCatId (categories st) with
  | None => st
  | Some cat =>
      let name := if truthy (trim nameValue) then trim nameValue
                  else Category.name cat in
      let lines :=
        filter (fun s => truthy s = true) (map trim (splitLines linesValue [])) in
      let cat := Category.mk (Category.id cat) name lines (Category.selected cat) in
      let outs := ensureOutputEntry cat (outputsByCatId st) in
      mkState
        (putCat modalCatId
           (reconcileSelectionFromText cat (outText (Category.id cat) outs))
           (categories st))
        outs
  end.

(** The reconciliation loop of [init] over the categories. *)
Fixpoint initLoop (cats : list Category.t) (outs : outputs)
  : list Category.t * outputs :=
  match cats with
  | [] => ([], outs)
  | cat :: r =>
      let outs := ensureOutputEntry cat outs in
      let cat :=
        if truthy (outText (Category.id cat) outs)
        then reconcileSelectionFromText cat (outText (Category.id cat) outs)
        else cat in
      let '(r', outs') := initLoop r outs in
      (cat :: r', outs')
  end.

(** [init]: [stored] is the result of [loadState] (the stored categories, if
    any), [defaults] the categories of defaults.json, [outs] the result of
    [loadOutputs]. *)
Definition init (stored : option (list Category.t)) (defaults : list Category.t)
    (outs : outputs) : State :=
  let cats :=
    match stored with
    | Some cs => cs
    | None =>
        map (fun c => Category.mk (Category.id c) (Category.name c)
                        (Category.options c) []) defaults
    end in
  let '(cats', outs') := initLoop cats outs in
  mkState cats' outs'.

(** ** History snapshots *)

Module HistoryEntry.
Record t := mk { id : str; time : str; text : str }.
End HistoryEntry.

(** What the getters of [new Date()] return. *)
Record Clock := mkClock {
  getFullYear : nat; getMonth : nat; getDate : nat;
  getHours : nat; getMinutes : nat; getSeconds : nat
}.

Fixpoint digits (d : Decimal.uint) : str :=
  match d with
  | Nil => []
  | D0 d => 48%N :: digits d
  | D1 d => 49%N :: digits d
  | D2 d => 50%N :: digits d
  | D3 d => 51%N :: digits d
  | D4 d => 52%N :: digits d
  | D5 d => 53%N :: digits d
  | D6 d => 54%N :: digits d
  | D7 d => 55%N :: digits d
  | D8 d => 56%N :: digits d
  | D9 d => 57%N :: digits d
  end.

(** [String(n)] for a non-negative integer. *)
Definition String_ (n : nat) : str := digits (Nat.to_uint n).

(** [s.padStart(2, "0")] *)
Definition padStart2 (s : str) : str := replicate (2 - length s) 48%N ++ s.

Definition todayKey (d : Clock) : str :=
  String_ (getFullYear d) ++ lit "-" ++ padStart2 (String_ (getMonth d + 1))
    ++ lit "-" ++ padStart2 (String_ (getDate d)).

Definition historyKey (d : Clock) : str := lit "pm_history_" ++ todayKey d.

Definition nowTime (d : Clock) : str :=
  padStart2 (String_ (getHours d)) ++ lit ":"
    ++ padStart2 (String_ (getMinutes d)) ++ lit ":"
    ++ padStart2 (String_ (getSeconds d)).

(** The history documents of localStorage, by key. *)
Abbreviation storage := (gmap (list N) (list HistoryEntry.t)) (only parsing).

Definition getHistory (d : Clock) (ls : storage) : list HistoryEntry.t :=
  default [] (ls !! historyKey d).

Definition setHistory (d : Clock) (l : list HistoryEntry.t) (ls : storage)
  : storage := <[historyKey d := l]> ls.

(** [s.slice(2, 10)] *)
Definition slice_2_10 (s : str) : str := take 8 (drop 2 s).

Definition nothingToSave : str :=
  lit "Nothing to save yet. Select some options first.".

(** [saveSnapshot]: [random16] is [Math.random().toString(16)], [d] the clock,
    [summaryValue] is [elSummary.value]. The result is the alert shown, if
    any, and the storage. *)
Definition saveSnapshot (random16 : str) (d : Clock) (summaryValue : str)
    (ls : storage) : option str * storage :=
  let summary := trim summaryValue in
  if negb (truthy summary) then (Some nothingToSave, ls)
  else
    let item := HistoryEntry.mk (lit "h_" ++ slice_2_10 random16) (nowTime d)
                  summary in
    let hist := getHistory d ls in
    (None, setHistory d (item :: hist) ls).

(** ** Further code of app.js *)

(** The 14 characters of the class in [escapeRegExp]:
    . * + ? ^ $ { } ( ) | [ ] and the backslash. *)
Definition isSyntaxChar (c : char) : bool :=
  ((c =? 46) || (c =? 42) || (c =? 43) || (c =? 63) || (c =? 94) || (c =? 36)
   || (c =? 123) || (c =? 125) || (c =? 40) || (c =? 41) || (c =? 124)
   || (c =? 91) || (c =? 93) || (c =? 92))%N.

(** [escapeRegExp]: the global replace of every character of the class by a
    backslash and the character itself. *)
Fixpoint escapeRegExp (s : str) : str :=
  match s with
  | [] => []
  | c :: r => if isSyntaxChar c then 92%N :: c :: escapeRegExp r
              else c :: escapeRegExp r
  end.

(** [Array.prototype.join] *)
Fixpoint join (sep : str) (l : list str) : str :=
  match l with
  | [] => []
  | [x] => x
  | x :: r => x ++ sep ++ join sep r
  end.

(** The loop of [buildSummary]: the blocks pushed, and the output map after
    the calls of [ensureOutputEntry]. *)
Fixpoint summaryBlocks (cats : list Category.t) (outs : outputs)
  : list str * outputs :=
  match cats with
  | [] => ([], outs)
  | cat :: r =>
      let outs := ensureOutputEntry cat outs in
      let text := trim (outText (Category.id cat) outs) in
      let '(blocks, outs') := summaryBlocks r outs in
      if negb (truthy text) then (blocks, outs') else (text :: blocks, outs')
  end.

Definition buildSummary (st : State) : str * State :=
  let '(blocks, outs) := summaryBlocks (categories st) (outputsByCatId st) in
  (join [10; 10]%N blocks, mkState (categories st) outs).

(** [openBulkModal]: the values put into the two fields of the modal. *)
Definition openBulkModal (catId : str) (st : State) : option (str * str) :=
  match findCat catId (categories st) with
  | None => None
  | Some cat => Some (Category.name cat, join [10%N] (Category.options cat))
  end.

(** [deleteCategory]: [confirmed] is the answer to [confirm]. *)
Definition deleteCategory (catId : str) (confirmed : bool) (st : State) : State :=
  match findCat catId (categories st) with
  | None => st
  | Some cat =>
      if negb confirmed then st
      else
        mkState
          (filter (fun c => Category.id c <> catId) (categories st))
          (delete catId (outputsByCatId st))
  end.

Definition newCategoryName : str := lit "New Category".

(** [randomId]: [random16] is [Math.random().toString(16)]. *)
Definition randomId (random16 : str) : str := lit "cat_" ++ slice_2_10 random16.

(** [addCategory]: [answer] is what [prompt] returns ([None] when it is
    cancelled). *)
Definition addCategory (answer : option str) (random16 : str) (st : State)
  : State :=
  match answer with
  | None => st
  | Some name =>
      if negb (truthy name) then st
      else
        let id := randomId random16 in
        let name := if truthy (trim name) then trim name else newCategoryName in
        mkState (Category.mk id name [] [] :: categories st)
                (<[id := emptyOutput]> (outputsByCatId st))
  end.

(** [resetDefaults]: [confirmed] is the answer to [confirm], [defaults] the
    categories of defaults.json ([None] when loading them fails, which throws
    before anything is assigned). *)
Definition resetDefaults (confirmed : bool) (defaults : option (list Category.t))
    (st : State) : State :=
  if negb confirmed then st
  else
    match defaults with
    | None => st
    | Some cs =>
        mkState
          (map (fun c => Category.mk (Category.id c) (Category.name c)
                           (Category.options c) []) cs)
          ∅
    end.

(** The click handler of the Delete button of a history item: [confirmed] is
    the answer to [confirm], [hid] the id of the item, [d] the clock at the
    click. *)
Definition deleteHistoryItem (d : Clock) (hid : str) (confirmed : bool)
    (ls : storage) : storage :=
  if negb confirmed then ls
  else setHistory d (filter (fun x => HistoryEntry.id x <> hid) (getHistory d ls)) ls.

Definition clearHistory (d : Clock) (confirmed : bool) (ls : storage) : storage :=
  if negb confirmed then ls else setHistory d [] ls.

(** The lines of [downloadHistoryTxt]: the header, an empty line, and three
    lines pushed for every entry, oldest first. *)
Definition historyHeader (d : Clock) : str :=
  todayKey d ++ [32; 8212; 32]%N ++ lit "Prompt Mixer history".

Definition pushEntryLines (lines : list str) (h : HistoryEntry.t) : list str :=
  lines ++ [lit "--- " ++ HistoryEntry.time h ++ lit " ---";
            HistoryEntry.text h; []].

Definition historyLines (d : Clock) (hist : list HistoryEntry.t) : list str :=
  foldl pushEntryLines [historyHeader d; []] (rev hist).

Definition noHistory : str := lit "No history to download today.".

(** [downloadHistoryTxt]: the alert shown, or the file name and the text
    handed to [downloadText]. *)
Definition downloadHistoryTxt (d : Clock) (ls : storage) : str + (str * str) :=
  let hist := getHistory d ls in
  if length hist =? 0 then inl noHistory
  else inr (lit "prompt_mixer_history_" ++ todayKey d ++ lit ".txt",
            join [10%N] (historyLines d hist)).

(** [k.startsWith(p)] and [k.endsWith(p)] *)
Definition startsWith (k p : str) : bool :=
  match eat p k with Some _ => true | None => false end.

Definition endsWith (k p : str) : bool := startsWith (rev k) (rev p).

(** [clearOldHistory] over the documents of localStorage, whatever they hold:
    every key that starts with the prefix and does not end with the key of
    today is removed. The keys are collected before any is removed, so the
    order of removal does not matter. *)
Definition staleHistoryKey (d : Clock) (k : str) : bool :=
  truthy k && startsWith k (lit "pm_history_") && negb (endsWith k (todayKey d)).

Definition clearOldHistory {V : Type} (d : Clock) (ls : gmap (list N) V)
  : gmap (list N) V :=
  filter (fun kv => staleHistoryKey d kv.1 = false) ls.

(** The theme: the documents of localStorage that hold strings, the
    attribute [data-theme] of the page and the text of the theme button (of a
    page that has the button). *)
Definition STORAGE_KEY_THEME : str := lit "pm_theme_v1".

Definition getTheme (ls : gmap (list N) (list N)) : str :=
  match ls !! STORAGE_KEY_THEME with
  | Some t => if str_eqb t (lit "light") || str_eqb t (lit "dark") then t
              else lit "dark"
  | None => lit "dark"
  end.

Record ThemeView := mkThemeView {
  dataTheme : str;
  themeStore : gmap (list N) (list N);
  btnThemeText : str
}.

Definition setTheme (theme : str) (ls : gmap (list N) (list N)) : ThemeView :=
  mkThemeView theme (<[STORAGE_KEY_THEME := theme]> ls)
    (if str_eqb theme (lit "dark") then lit "Light" else lit "Dark").

Definition toggleTheme (ls : gmap (list N) (list N)) : ThemeView :=
  setTheme (if str_eqb (getTheme ls) (lit "dark") then lit "light" else lit "dark") ls.

(** * Vocabulary of the properties *)

(** A successful match hands the continuation a suffix of its input. *)
Definition reaches (k : cont) (i : nat) (s : str) (e : nat) : Prop :=
  exists n, n <= length s /\ k (i + n) (drop n s) = Some e.

(** A text that the tidy-up of [removeOptionToken] leaves alone: trimmed, and
    none of the four tidy patterns matches. *)
Definition tidy (t : str) : Prop :=
  trim t = t /\ test leadingSep t = false /\ test trailingSep t = false
  /\ test doubledSep t = false /\ test spaceRun t = false.

(** In the text "t, o" the two removal steps find the appended token only:
    step 1 finds nothing at the start, and the leftmost match of step 2 is the
    appended separator. *)
Definition appendedOnly (t o : str) : Prop :=
  t <> [] ->
  test (atStart o) (t ++ [comma; space] ++ o) = false
  /\ fst <$> search (elsewhere o) (t ++ [comma; space] ++ o) = Some (length t).

(** ** The store *)

(** The user gestures on the store. [ActReload] closes and reopens the page:
    [init] runs on the documents that [persist] wrote. *)
Inductive action : Type :=
| ActToggle (catId : str) (idx : nat) (checked : bool)
| ActToggleAll (catId : str)
| ActInput (catId : str) (v : str)
| ActClear (catId : str)
| ActUndo (catId : str)
| ActSaveBulk (catId : str) (nameValue linesValue : str)
| ActReload.

Definition run (a : action) (st : State) : State :=
  match a with
  | ActToggle c idx checked => toggleOption c idx checked st
  | ActToggleAll c => toggleAll c st
  | ActInput c v => onTextareaInput c v st
  | ActClear c => clearOutput c st
  | ActUndo c => undoOutput c st
  | ActSaveBulk c n l => saveBulkModal c n l st
  | ActReload => init (Some (categories st)) [] (outputsByCatId st)
  end.

(** [selected] is exactly the set of indices whose option is a token of [t]. *)
Definition selectionOf (cat : Category.t) (t : str) : Prop :=
  forall i, i ∈ Category.selected cat <->
    exists o, Category.options cat !! i = Some o /\ hasOptionToken t o = true.

(** The invariant of the data model. *)
Definition consistent (st : State) : Prop :=
  forall cat, cat ∈ categories st ->
    selectionOf cat (outText (Category.id cat) (outputsByCatId st)).

Definition uniqueIds (st : State) : Prop :=
  NoDup (Category.id <$> categories st).

Definition textOf (catId : str) (st : State) : str :=
  outText catId (outputsByCatId st).

(** The gesture pushes the text of [catId] onto its undo stack: a toggle,
    All/Clear or an edit that changes the text, or a clear of an existing
    entry. *)
Definition pushes (a : action) (catId : str) (st : State) : Prop :=
  match a with
  | ActToggle c _ _ | ActToggleAll c | ActInput c _ =>
      c = catId /\ textOf catId (run a st) <> textOf catId st
  | ActClear c => c = catId /\ is_Some (outputsByCatId st !! catId)
  | ActUndo _ | ActSaveBulk _ _ _ | ActReload => False
  end.

(** What a handler does to the category [catId] it acts on: it keeps the id,
    leaves every other text alone, and either changes nothing of the category
    and its text or leaves a selection derived from the new text. *)
Definition settles (catId : str) (cat : Category.t) (outs : outputs)
    (cat' : Category.t) (outs' : outputs) : Prop :=
  Category.id cat' = catId
  /\ (forall id', id' <> catId -> outText id' outs' = outText id' outs)
  /\ ((cat' = cat /\ outText catId outs' = outText catId outs)
      \/ selectionOf cat' (outText catId outs')).

(** The last observed value of the entry of [catId] is its text. Every
    handler leaves the entries it touches in this state ([run_observed]). *)
Definition lastObserved (catId : str) (st : State) : Prop :=
  forall out, outputsByCatId st !! catId = Some out ->
    Output.lastValue out = Output.text out.

Definition observed (outs : outputs) : Prop :=
  map_Forall (fun _ out => Output.lastValue out = Output.text out) outs.

(** ** Tokens, declaratively *)

Definition allSpace (w : str) : Prop := Forall (fun c => is_space c = true) w.

(** What may stand before a token: nothing, or a comma and white space. *)
Definition sepBefore (pre : str) : Prop :=
  pre = [] \/ exists p w, pre = p ++ comma :: w /\ allSpace w.

(** What may stand after a token: white space, then the end or a comma. *)
Definition endAfter (post : str) : Prop :=
  exists w r, post = w ++ r /\ allSpace w /\ (r = [] \/ exists r', r = comma :: r').

(** The option [o] stands in [t] as a whole token. *)
Definition tokenIn (t o : str) : Prop :=
  exists pre post, t = pre ++ o ++ post /\ sepBefore pre /\ endAfter post.

(** An option as the bulk editor leaves it and that does not end with a
    comma. *)
Definition plainOption (o : str) : Prop :=
  o <> [] /\ trim o = o /\ last o <> Some comma.

(** No undo stack holds more than 120 texts. *)
Definition undoBounded (outs : outputs) : Prop :=
  map_Forall (fun _ out => length (Output.undo out) <= 120) outs.

(** The undo stack of [catId], empty when there is no entry. *)
Definition undoOf (catId : str) (st : State) : list str :=
  Output.undo (default emptyOutput (outputsByCatId st !! catId)).

(** Every output entry belongs to a category, and every category has one. *)
Definition noOrphans (st : State) : Prop :=
  forall i, is_Some (outputsByCatId st !! i) -> i ∈ Category.id <$> categories st.

Definition allHaveEntries (st : State) : Prop :=
  forall c, c ∈ categories st -> is_Some (outputsByCatId st !! Category.id c).

(** An option as a line of the bulk editor holds it: not empty, trimmed and
    without a line feed. *)
Definition lineOption (o : str) : Prop :=
  o <> [] /\ trim o = o /\ 10%N ∉ o.

(** Reading the source of a pattern as a plain literal: a backslash followed
    by a syntax character stands for that character, any other character
    for itself; a syntax character without its backslash, or a backslash
    before anything else, is not a literal. *)
Fixpoint readLiteral (src : str) : option str :=
  match src with
  | [] => Some []
  | c :: r =>
      if (c =? 92)%N then
        match r with
        | c' :: r' => if isSyntaxChar c' then cons c' <$> readLiteral r' else None
        | [] => None
        end
      else if isSyntaxChar c then None
      else cons c <$> readLiteral r
  end.

(** The string [o] occurs somewhere in [t]. *)
Definition occursIn (o t : str) : Prop :=
  exists pre post, t = pre ++ o ++ post.

(** ** Examples *)

(** The category of the scenarios of the specification, with its first option
    selected. *)
Definition styleCat : Category.t :=
  Category.mk (lit "c1") (lit "Style")
    [lit "brutalist"; lit "neo-futurist, glassy"] [0].

Definition styleOuts : gmap (list N) Output.t :=
  {[ lit "c1" := Output.mk (lit "brutalist") true [[]] (lit "brutalist") ]}.

(** A category whose stored selection names an option that its empty text
    does not hold. *)
Definition darkCat : Category.t :=
  Category.mk (lit "c1") (lit "Style") [lit "dark"] [0].

Definition darkOuts : gmap (list N) Output.t :=
  {[ lit "c1" := Output.mk [] false [lit "dark"] [] ]}.

(** Toggling the option [idx] of [cat] on and then off again. *)
Definition onThenOff (cat : Category.t) (idx : nat) (outs : outputs)
  : Category.t * outputs :=
  let on := applyLeftToggle cat idx true outs in
  applyLeftToggle on.1 idx false on.2.

(** The state of the scenarios: the one category [styleCat] with the text
    "brutalist". *)
Definition styleState : State := mkState [styleCat] styleOuts.

(** A clock reading: 2 November 2026, 09:05:07. *)
Definition morning : Clock := mkClock 2026 10 2 9 5 7.

(** * Properties *)

(** ** Strings *)

Section StrFacts.

Implicit Types (s t u : list N) (c : N).

Lemma truthy_true s : truthy s = true <-> s <> [].
Proof. destruct s; simpl; split; congruence. Qed.

Lemma truthy_false s : truthy s = false <-> s = [].
Proof. destruct s; simpl; split; congruence. Qed.

Lemma str_eqb_eq s t : str_eqb s t = true <-> s = t.
Proof. unfold str_eqb. apply bool_decide_eq_true. Qed.

Lemma str_eqb_neq s t : str_eqb s t = false <-> s <> t.
Proof. unfold str_eqb. apply bool_decide_eq_false. Qed.

Lemma str_eqb_refl s : str_eqb s s = true.
Proof. by apply str_eqb_eq. Qed.

Lemma trimStart_idem s : trimStart (trimStart s) = trimStart s.
Proof.
  induction s as [|c s IH]; simpl; [done|].
  destruct (is_space c) eqn:E; [done|]. simpl. by rewrite E.
Qed.

Lemma trimStart_snoc s c :
  trimStart (s ++ [c]) =
  match trimStart s with
  | [] => if is_space c then [] else [c]
  | x => x ++ [c]
  end.
Proof.
  induction s as [|a s IH]; simpl; [done|].
  destruct (is_space a); [exact IH | done].
Qed.

(** [trimEnd] read from the front of the list. *)
Lemma trimEnd_cons c s :
  trimEnd (c :: s) =
  match trimEnd s with
  | [] => if is_space c then [] else [c]
  | x => c :: x
  end.
Proof.
  unfold trimEnd. simpl. rewrite trimStart_snoc.
  destruct (trimStart (rev s)) as [|a l] eqn:E; simpl.
  - by destruct (is_space c).
  - rewrite rev_app_distr. simpl.
    destruct (rev l ++ [a]) eqn:E2; [by destruct (rev l)|done].
Qed.

Lemma trimEnd_nil : trimEnd [] = [].
Proof. done. Qed.

Lemma trimEnd_idem s : trimEnd (trimEnd s) = trimEnd s.
Proof.
  induction s as [|c s IH]; [done|].
  rewrite trimEnd_cons. destruct (trimEnd s) as [|a l] eqn:E.
  - destruct (is_space c) eqn:Ec; [done|].
    rewrite trimEnd_cons, trimEnd_nil. by rewrite Ec.
  - rewrite trimEnd_cons, IH. done.
Qed.

Lemma trimStart_length s : length (trimStart s) <= length s.
Proof.
  induction s as [|a s IH]; simpl; [lia|].
  destruct (is_space a); simpl; lia.
Qed.

(** A non-empty text without leading white space starts with a character
    that is not white space. *)
Lemma trimStart_fixed_cons c s : trimStart (c :: s) = c :: s -> is_space c = false.
Proof.
  simpl. destruct (is_space c); [|done].
  intros H. pose proof (trimStart_length s) as Hl.
  rewrite H in Hl. simpl in Hl. lia.
Qed.

(** Trimming the end keeps a text free of leading white space. *)
Lemma trimStart_trimEnd s : trimStart s = s -> trimStart (trimEnd s) = trimEnd s.
Proof.
  destruct s as [|c s]; [done|].
  intros E%trimStart_fixed_cons. rewrite trimEnd_cons.
  destruct (trimEnd s); rewrite ?E; cbn [trimStart]; by rewrite E.
Qed.

Lemma trimStart_trim s : trimStart (trim s) = trim s.
Proof. apply trimStart_trimEnd, trimStart_idem. Qed.

Lemma trimEnd_trim s : trimEnd (trim s) = trim s.
Proof. apply trimEnd_idem. Qed.

Lemma trim_idem s : trim (trim s) = trim s.
Proof. unfold trim at 1. by rewrite trimStart_trim, trimEnd_trim. Qed.

Lemma trim_nil : trim [] = [].
Proof. done. Qed.

(** A text is trimmed exactly when neither end can be trimmed. *)
Lemma trim_fixed s : trim s = s <-> trimStart s = s /\ trimEnd s = s.
Proof.
  split.
  - intros H. split; rewrite <- H; [apply trimStart_trim | apply trimEnd_trim].
  - intros [H1 H2]. unfold trim. by rewrite H1.
Qed.

Lemma trimStart_app s u : trimStart s = s -> s <> [] -> trimStart (s ++ u) = s ++ u.
Proof.
  destruct s as [|c s]; [done|].
  intros E%trimStart_fixed_cons _. simpl. by rewrite E.
Qed.

Lemma trimEnd_app s u : trimEnd u = u -> u <> [] -> trimEnd (s ++ u) = s ++ u.
Proof.
  intros Hu Hne. induction s as [|c s IH]; [done|].
  simpl. rewrite trimEnd_cons, IH.
  destruct (s ++ u) eqn:E; [|done].
  apply app_eq_nil in E. tauto.
Qed.

Lemma trim_app s u :
  trim s = s -> s <> [] -> trim u = u -> u <> [] -> forall w, trim (s ++ w ++ u) = s ++ w ++ u.
Proof.
  intros Hs Hsn Hu Hun w. apply trim_fixed in Hs as [Hs _]. apply trim_fixed in Hu as [_ Hu].
  apply trim_fixed. split.
  - by apply trimStart_app.
  - rewrite app_assoc. by apply trimEnd_app.
Qed.

End StrFacts.

(** ** The matcher *)

Section RegExpFacts.

Implicit Types (r : re) (s l : list N) (k : cont) (p : N -> bool).

Lemma eat_app l s : eat l (l ++ s) = Some s.
Proof. induction l as [|a l IH]; simpl; [done|]. by rewrite N.eqb_refl. Qed.

Lemma eat_self l : eat l l = Some [].
Proof. rewrite <- (app_nil_r l) at 2. apply eat_app. Qed.

Lemma eat_Some l s s' : eat l s = Some s' -> s = l ++ s'.
Proof.
  revert s. induction l as [|a l IH]; intros [|b s]; simpl; try congruence.
  destruct (N.eqb_spec a b) as [->|]; [|done].
  intros H. by rewrite (IH _ H).
Qed.

Lemma reaches_here k i s e : k i s = Some e -> reaches k i s e.
Proof. intros H. exists 0. rewrite Nat.add_0_r. split; [lia|done]. Qed.

Lemma reaches_tail k i c s e : reaches k (S i) s e -> reaches k i (c :: s) e.
Proof.
  intros (n & Hn & H). exists (S n). simpl. split; [lia|].
  by rewrite <- Nat.add_succ_comm.
Qed.

Lemma star_reaches p i s k e : star p i s k = Some e -> reaches k i s e.
Proof.
  revert i. induction s as [|c s IH]; intros i; simpl.
  - apply reaches_here.
  - destruct (p c); [|apply reaches_here].
    destruct (star p (S i) s k) eqn:E.
    + intros [= ->]. by apply reaches_tail, IH.
    + apply reaches_here.
Qed.

Lemma atleast_reaches n p i s k e : atleast n p i s k = Some e -> reaches k i s e.
Proof.
  revert i s. induction n as [|n IH]; intros i s; simpl.
  - apply star_reaches.
  - destruct s as [|c s]; [done|]. destruct (p c); [|done].
    intros H. by apply reaches_tail, IH.
Qed.

Lemma reaches_trans k k' i s e :
  reaches k' i s e ->
  (forall j s', k' j s' = Some e -> reaches k j s' e) ->
  reaches k i s e.
Proof.
  intros (n & Hn & H) Hk. destruct (Hk _ _ H) as (n' & Hn' & H').
  exists (n + n'). rewrite length_drop in Hn'. split; [lia|].
  by rewrite Nat.add_assoc, <- drop_drop.
Qed.

Lemma m_reaches r i s k e : m r i s k = Some e -> reaches k i s e.
Proof.
  revert i s k. induction r as [| |p|l|a IHa b IHb|a IHa b IHb|a IHa|n p|a IHa];
    intros i s k; simpl.
  - destruct (i =? 0); [apply reaches_here|done].
  - destruct s; [apply reaches_here|done].
  - destruct s as [|c s]; [done|]. destruct (p c); [|done].
    intros H. by apply reaches_tail, reaches_here.
  - destruct (eat l s) as [s'|] eqn:E; [|done].
    apply eat_Some in E as ->. intros H.
    exists (length l). rewrite length_app, drop_app_length. split; [lia|done].
  - intros H. apply IHa in H. eapply reaches_trans; [exact H|].
    intros j s'. apply IHb.
  - destruct (m a i s k) eqn:E.
    + intros [= ->]. by apply IHa.
    + apply IHb.
  - destruct (m a i s k) eqn:E.
    + intros [= ->]. by apply IHa.
    + apply reaches_here.
  - apply atleast_reaches.
  - destruct (m a i s accept); [apply reaches_here|done].
Qed.

(** A match at index [i] ends inside the input. *)
Lemma matchAt_bound r i s e :
  matchAt r i s = Some e -> i <= e /\ e <= i + length s.
Proof.
  intros (n & Hn & H)%m_reaches. unfold accept in H.
  injection H as <-. lia.
Qed.

Lemma searchFrom_None r i s :
  searchFrom r i s = None ->
  forall d, d <= length s -> matchAt r (i + d) (drop d s) = None.
Proof.
  revert i. induction s as [|c s IH]; intros i; simpl.
  - destruct (matchAt r i []) eqn:E; [done|]. intros _ d Hd.
    assert (d = 0) as -> by lia. by rewrite Nat.add_0_r.
  - destruct (matchAt r i (c :: s)) eqn:E; [done|]. intros H [|d] Hd.
    + by rewrite Nat.add_0_r.
    + simpl. rewrite <- Nat.add_succ_comm. apply IH; [done|lia].
Qed.

(** The leftmost index at which the pattern matches is the one found. *)
Lemma searchFrom_first r i s d e :
  d <= length s ->
  (forall d', d' < d -> matchAt r (i + d') (drop d' s) = None) ->
  matchAt r (i + d) (drop d s) = Some e ->
  searchFrom r i s = Some (i + d, e - (i + d)).
Proof.
  revert i s. induction d as [|d IH]; intros i s Hd Hnone Hm.
  - rewrite Nat.add_0_r in *. rewrite drop_0 in Hm.
    destruct s; simpl; by rewrite Hm.
  - destruct s as [|c s]; [simpl in Hd; lia|].
    simpl. pose proof (Hnone 0 ltac:(lia)) as H0.
    rewrite Nat.add_0_r, drop_0 in H0. rewrite H0.
    rewrite <- Nat.add_succ_comm. apply IH.
    + simpl in Hd. lia.
    + intros d' Hd'. specialize (Hnone (S d') ltac:(lia)).
      by rewrite <- Nat.add_succ_comm in Hnone.
    + by rewrite <- Nat.add_succ_comm in Hm.
Qed.

Lemma searchFrom_here r i s e :
  matchAt r i s = Some e -> searchFrom r i s = Some (i, e - i).
Proof. intros H. destruct s; simpl; by rewrite H. Qed.

Lemma searchFrom_is_Some r i s d e :
  d <= length s ->
  matchAt r (i + d) (drop d s) = Some e ->
  is_Some (searchFrom r i s).
Proof.
  intros Hd Hm. destruct (searchFrom r i s) eqn:E; [done|].
  by rewrite (searchFrom_None _ _ _ E d Hd) in Hm.
Qed.

Lemma searchFrom_Some r i s j n :
  searchFrom r i s = Some (j, n) ->
  exists d, j = i + d /\ d + n <= length s
    /\ matchAt r j (drop d s) = Some (j + n).
Proof.
  revert i. induction s as [|c s IH]; intros i; simpl.
  - destruct (matchAt r i []) eqn:E; [|done]. intros [= <- <-].
    exists 0. apply matchAt_bound in E as HE. simpl in HE.
    split; [lia|]. split; [lia|].
    rewrite drop_0, E. f_equal. lia.
  - destruct (matchAt r i (c :: s)) eqn:E.
    + intros [= <- <-]. exists 0. apply matchAt_bound in E as HE. simpl in HE.
      split; [lia|]. split; [simpl; lia|].
      rewrite drop_0, E. f_equal. lia.
    + intros (d & -> & Hd & Hm)%IH. exists (S d).
      split; [lia|]. split; [lia|done].
Qed.

Lemma test_true r s d e :
  d <= length s -> matchAt r d (drop d s) = Some e -> test r s = true.
Proof.
  intros Hd Hm. unfold test, search.
  by destruct (searchFrom_is_Some r 0 s d e Hd Hm) as [? ->].
Qed.

Lemma test_false r s : test r s = false <-> search r s = None.
Proof. unfold test. destruct (search r s); split; congruence. Qed.

(** Where the pattern does not match, replacing changes nothing. *)
Lemma replace_no_match r b s : test r s = false -> replace r b s = s.
Proof. intros H%test_false. unfold replace. by rewrite H. Qed.

Lemma replaceAll_no_match r b s : test r s = false -> replaceAll r b s = s.
Proof. intros H%test_false. unfold replaceAll, search in *. simpl. by rewrite H. Qed.

(** The rounds of a global replace never run out. *)
Lemma replaceAllFrom_fuel r b f1 f2 i s :
  length s < f1 -> length s < f2 ->
  replaceAllFrom f1 r b i s = replaceAllFrom f2 r b i s.
Proof.
  revert f2 i s. induction f1 as [|f1 IH]; intros [|f2] i s H1 H2; try lia.
  simpl. destruct (searchFrom r i s) as [[j n]|] eqn:E; [|done].
  apply searchFrom_Some in E as (d & -> & Hd & Hm).
  replace (i + d - i) with d by lia.
  destruct n as [|n].
  - do 2 f_equal. destruct (drop d s) as [|c s'] eqn:Ed; [done|].
    f_equal. apply (f_equal length) in Ed. rewrite length_drop in Ed. simpl in Ed.
    apply IH; lia.
  - do 2 f_equal. apply IH; rewrite length_drop; lia.
Qed.

End RegExpFacts.

(** ** Token matcher and text mutators *)

Section TokenFacts.

Implicit Types (t o s : list N).

Lemma hasOptionToken_trim t o : hasOptionToken (trim t) o = hasOptionToken t o.
Proof. unfold hasOptionToken. by rewrite trim_idem. Qed.

Lemma hasOptionToken_nil_l o : hasOptionToken [] o = false.
Proof. done. Qed.

Lemma hasOptionToken_nil_r t : hasOptionToken t [] = false.
Proof. unfold hasOptionToken. by rewrite orb_true_r. Qed.

Lemma hasOptionToken_self o : o <> [] -> trim o = o -> hasOptionToken o o = true.
Proof.
  intros Hne Ho. unfold hasOptionToken. rewrite Ho.
  apply truthy_true in Hne as ->. simpl.
  apply (test_true _ _ 0 (length o)); [lia|].
  unfold matchAt, tokenRegex. rewrite drop_0.
  cbn [m Nat.eqb]. by rewrite eat_self.
Qed.

(** The appended token ", o" is found by the token pattern. *)
Lemma token_appended o i :
  o <> [] -> trimStart o = o ->
  is_Some (matchAt (tokenRegex o) i ([comma; space] ++ o)).
Proof.
  intros Hne Ho. unfold matchAt, tokenRegex. cbn [m].
  match goal with |- is_Some (match ?x with _ => _ end) => destruct x end;
    [done|].
  destruct o as [|c o']; [done|].
  apply trimStart_fixed_cons in Ho.
  unfold sep, ws. cbn [m app atleast star].
  change (is_comma comma) with true. change (is_space space) with true.
  cbv iota. rewrite Ho, eat_self. done.
Qed.

Lemma hasOptionToken_appended b o :
  b <> [] -> trim b = b -> o <> [] -> trim o = o ->
  hasOptionToken (b ++ [comma; space] ++ o) o = true.
Proof.
  intros Hb Hbt Ho Hot. unfold hasOptionToken.
  rewrite (trim_app b o Hbt Hb Hot Ho).
  assert (truthy (b ++ [comma; space] ++ o) = true) as ->
    by (apply truthy_true; destruct b; done).
  apply truthy_true in Ho as Ho'. rewrite Ho'. cbn [negb orb].
  apply trim_fixed in Hot as [Hs _].
  destruct (token_appended o (length b) Ho Hs) as [e He].
  apply (test_true _ _ (length b) e).
  - rewrite length_app. lia.
  - by rewrite drop_app_length.
Qed.

(** What [addOptionToken] returns is trimmed. *)
Lemma addOptionToken_trimmed t o :
  trim o = o -> trim (addOptionToken t o) = addOptionToken t o.
Proof.
  intros Ho. unfold addOptionToken.
  destruct (truthy o) eqn:Eo; cbn [negb]; [|apply trim_idem].
  destruct (hasOptionToken (trim t) o); [apply trim_idem|].
  destruct (truthy (trim t)); cbn [negb]; [|done].
  destruct (truthy (trim _)) eqn:Eb; [|done].
  apply trim_app; try done; try by apply truthy_true.
  apply trim_idem.
Qed.

Lemma addOptionToken_present t o :
  o <> [] -> trim o = o -> hasOptionToken (addOptionToken t o) o = true.
Proof.
  intros Hne Ho. unfold addOptionToken.
  apply truthy_true in Hne as Eo. rewrite Eo. cbn [negb].
  destruct (hasOptionToken (trim t) o) eqn:E; [done|].
  destruct (truthy (trim t)); cbn [negb]; [|by apply hasOptionToken_self].
  destruct (truthy (trim _)) eqn:Eb; [|by apply hasOptionToken_self].
  apply hasOptionToken_appended; try done.
  - by apply truthy_true.
  - apply trim_idem.
Qed.

Lemma addOptionToken_has t o :
  hasOptionToken t o = true -> addOptionToken t o = trim t.
Proof.
  intros H. unfold addOptionToken.
  destruct (truthy o); cbn [negb]; [|done].
  by rewrite hasOptionToken_trim, H.
Qed.

End TokenFacts.

Section RoundTrip.

Implicit Types (t o s : list N).

(** A comma at the end is a trailing separator. *)
Lemma trailingComma_trailingSep i s :
  matchAt trailingSep i s = None -> matchAt trailingComma i s = None.
Proof.
  unfold matchAt, trailingSep, trailingComma, sep, ws. cbn [m atleast].
  destruct s as [|c s]; [done|]. cbn [star].
  destruct (is_comma c) eqn:Ec; [|done].
  assert (is_space c = false) as ->; [|done].
  unfold is_comma in Ec. apply N.eqb_eq in Ec as ->. done.
Qed.

Lemma test_trailingComma t : test trailingSep t = false -> test trailingComma t = false.
Proof.
  intros H%test_false. apply test_false.
  destruct (search trailingComma t) as [[j n]|] eqn:E; [|done].
  apply searchFrom_Some in E as (d & -> & Hd & Hm).
  rewrite trailingComma_trailingSep in Hm; [done|].
  apply (searchFrom_None _ _ _ H). lia.
Qed.

Lemma addOptionToken_absent t o :
  o <> [] -> trim t = t -> t <> [] -> hasOptionToken t o = false ->
  test trailingSep t = false ->
  addOptionToken t o = t ++ [comma; space] ++ o.
Proof.
  intros Ho Ht Hne Habs Htr. unfold addOptionToken.
  apply truthy_true in Ho as ->. apply truthy_true in Hne as Hne'.
  rewrite Ht, Habs, Hne'. cbn [negb].
  rewrite (replace_no_match _ _ _ (test_trailingComma _ Htr)), Ht, Hne'. done.
Qed.

Lemma addOptionToken_empty o : o <> [] -> addOptionToken [] o = o.
Proof. intros Ho. unfold addOptionToken. by apply truthy_true in Ho as ->. Qed.

(** Step 2 at the appended separator takes exactly ", o". *)
Lemma elsewhere_appended o i :
  o <> [] -> trimStart o = o ->
  matchAt (elsewhere o) i ([comma; space] ++ o) = Some (i + (2 + length o)).
Proof.
  intros Hne Ho. destruct o as [|c o']; [done|].
  apply trimStart_fixed_cons in Ho.
  unfold matchAt, elsewhere, sep, ws. cbn [m app atleast star].
  change (is_comma comma) with true. change (is_space space) with true.
  cbv iota. rewrite Ho, eat_self. unfold accept. f_equal. lia.
Qed.

Lemma replaceAllFrom_elsewhere_nil f o b i : replaceAllFrom f (elsewhere o) b i [] = [].
Proof. by destruct f. Qed.

Lemma removeOptionToken_self o : o <> [] -> trim o = o -> removeOptionToken o o = [].
Proof.
  intros Hne Ho. unfold removeOptionToken. rewrite Ho.
  apply truthy_true in Hne as ->. cbn [negb orb].
  assert (replace (atStart o) [] o = []) as ->; [|done].
  unfold replace, search.
  assert (matchAt (atStart o) 0 o = Some (length o)) as Hm.
  { unfold matchAt, atStart. cbn [m Nat.eqb]. by rewrite eat_self. }
  rewrite (searchFrom_here _ _ _ _ Hm), Nat.sub_0_r.
  cbn [take app Nat.add]. by rewrite drop_all.
Qed.

Lemma removeOptionToken_appended t o :
  o <> [] -> trim o = o -> t <> [] -> tidy t -> appendedOnly t o ->
  removeOptionToken (t ++ [comma; space] ++ o) o = t.
Proof.
  intros Hne Ho Htne (Ht & Hl & Htr & Hd & Hsp) Happ.
  destruct (Happ Htne) as [H1 H2].
  unfold removeOptionToken.
  rewrite (trim_app t o Ht Htne Ho Hne).
  assert (truthy (t ++ [comma; space] ++ o) = true) as ->
    by (apply truthy_true; destruct t; done).
  apply truthy_true in Hne as Hne'. rewrite Hne'. cbn [negb orb].
  rewrite (replace_no_match _ _ _ H1).
  assert (replaceAll (elsewhere o) [] (t ++ [comma; space] ++ o) = t) as ->.
  { unfold replaceAll. cbn [replaceAllFrom]. unfold search in H2.
    destruct (searchFrom _ 0 _) as [[j n]|] eqn:E; [|done].
    injection H2 as ->.
    apply searchFrom_Some in E as (d & Hj & Hd' & Hm).
    simpl in Hj. subst d. rewrite drop_app_length in Hm.
    apply trim_fixed in Ho as [Hos _].
    rewrite (elsewhere_appended o _ Hne Hos) in Hm.
    assert (n = S (S (length o))) as -> by (injection Hm; lia).
    rewrite Nat.sub_0_r, take_app_length.
    rewrite drop_ge, replaceAllFrom_elsewhere_nil.
    - by rewrite app_nil_r.
    - rewrite !length_app. simpl. lia. }
  rewrite (replace_no_match _ _ _ Hl), (replace_no_match _ _ _ Htr).
  rewrite (replaceAll_no_match _ _ _ Hd), (replaceAll_no_match _ _ _ Hsp).
  done.
Qed.

(** Adding an absent option to a tidy text and removing it again gives the
    text back. *)
Lemma add_remove_roundtrip t o :
  o <> [] -> trim o = o -> hasOptionToken t o = false -> tidy t ->
  appendedOnly t o ->
  removeOptionToken (addOptionToken t o) o = t.
Proof.
  intros Hne Ho Habs Htidy Happ. destruct t as [|c t'].
  - rewrite addOptionToken_empty by done. by apply removeOptionToken_self.
  - destruct Htidy as (Ht & Hl & Htr & Hd & Hsp).
    rewrite addOptionToken_absent by done.
    by apply removeOptionToken_appended.
Qed.

End RoundTrip.

(** ** The store and its lookups *)

Section StoreFacts.

Implicit Types (cat c : Category.t) (cats : list Category.t)
  (outs : gmap (list N) Output.t) (catId t : list N).

Lemma hasId_true catId c : hasId catId c = true <-> Category.id c = catId.
Proof. apply str_eqb_eq. Qed.

Lemma findCat_Some catId cats c :
  findCat catId cats = Some c -> c ∈ cats /\ Category.id c = catId.
Proof.
  induction cats as [|a r IH]; simpl; [done|].
  destruct (hasId catId a) eqn:E.
  - intros [= <-]. split; [left|by apply hasId_true].
  - intros [H1 H2]%IH. split; [by right|done].
Qed.

Lemma findCat_putCat catId c' cats :
  is_Some (findCat catId cats) -> Category.id c' = catId ->
  findCat catId (putCat catId c' cats) = Some c'.
Proof.
  intros Hs Hid. induction cats as [|a r IH]; simpl in *; [by destruct Hs|].
  destruct (hasId catId a) eqn:E; simpl.
  - by apply hasId_true in Hid as ->.
  - rewrite E. by apply IH.
Qed.

Lemma elem_of_putCat catId c' cats c :
  NoDup (Category.id <$> cats) -> c ∈ putCat catId c' cats ->
  c = c' \/ (c ∈ cats /\ Category.id c <> catId).
Proof.
  induction cats as [|a r IH]; simpl; [by intros _ ?%elem_of_nil|].
  intros [Ha Hr]%NoDup_cons. destruct (hasId catId a) eqn:E.
  - intros [->|Hc]%elem_of_cons; [by left|]. right. split; [by right|].
    apply hasId_true in E. intros Heq. apply Ha. rewrite E, <- Heq.
    by apply list_elem_of_fmap_2.
  - intros [->|Hc]%elem_of_cons.
    + right. split; [left|]. intros Heq%hasId_true. congruence.
    + destruct (IH Hr Hc) as [->|[H1 H2]]; [by left|]. right. split; [by right|done].
Qed.

Lemma putCat_ids catId c' cats :
  Category.id c' = catId ->
  Category.id <$> putCat catId c' cats = Category.id <$> cats.
Proof.
  intros Hid. induction cats as [|a r IH]; [done|].
  cbn [putCat]. destruct (hasId catId a) eqn:E; rewrite !fmap_cons.
  - apply hasId_true in E. by rewrite Hid, E.
  - by rewrite IH.
Qed.

Lemma outText_ensure cat catId outs :
  outText catId (ensureOutputEntry cat outs) = outText catId outs.
Proof.
  unfold ensureOutputEntry, outText.
  destruct (outs !! Category.id cat) eqn:E; [done|].
  destruct (decide (Category.id cat = catId)) as [<-|Hne].
  - by rewrite lookup_insert_eq, E.
  - by rewrite lookup_insert_ne.
Qed.

Lemma ensure_is_Some cat outs :
  is_Some (ensureOutputEntry cat outs !! Category.id cat).
Proof.
  unfold ensureOutputEntry. destruct (outs !! Category.id cat) eqn:E.
  - by rewrite E.
  - by rewrite lookup_insert_eq.
Qed.

Lemma ensure_lookup cat outs :
  ensureOutputEntry cat outs !! Category.id cat
  = Some (default emptyOutput (outs !! Category.id cat)).
Proof.
  unfold ensureOutputEntry. destruct (outs !! Category.id cat) eqn:E.
  - by rewrite E.
  - by rewrite lookup_insert_eq.
Qed.

Lemma ensure_lookup_ne cat catId outs :
  Category.id cat <> catId -> ensureOutputEntry cat outs !! catId = outs !! catId.
Proof.
  intros Hne. unfold ensureOutputEntry.
  destruct (outs !! Category.id cat); [done|]. by rewrite lookup_insert_ne.
Qed.

Lemma pushUndo_lookup catId p outs :
  pushUndo catId p outs !! catId =
  (fun out => Output.mk (Output.text out) (Output.dirty out)
                (pushBounded (Output.undo out) p) (Output.lastValue out))
    <$> outs !! catId.
Proof.
  unfold pushUndo. destruct (outs !! catId) eqn:E; simpl.
  - by rewrite lookup_insert_eq.
  - by rewrite E.
Qed.

Lemma pushUndo_lookup_ne catId id' p outs :
  catId <> id' -> pushUndo catId p outs !! id' = outs !! id'.
Proof.
  intros Hne. unfold pushUndo. destruct (outs !! catId); [|done].
  by rewrite lookup_insert_ne.
Qed.

Lemma commitText_lookup catId next outs :
  commitText catId next outs !! catId =
  (fun out => Output.mk next true (Output.undo out) next) <$> outs !! catId.
Proof.
  unfold commitText. destruct (outs !! catId) eqn:E; simpl.
  - by rewrite lookup_insert_eq.
  - by rewrite E.
Qed.

Lemma commitText_lookup_ne catId id' next outs :
  catId <> id' -> commitText catId next outs !! id' = outs !! id'.
Proof.
  intros Hne. unfold commitText. destruct (outs !! catId); [|done].
  by rewrite lookup_insert_ne.
Qed.

End StoreFacts.

(** ** The reconciler *)

Section ReconcileFacts.

Implicit Types (cat c : Category.t) (opts : list (list N)) (t : list N).

Lemma hasOptionToken_truthy t o : hasOptionToken t o = true -> truthy o = true.
Proof. destruct o; [by rewrite hasOptionToken_nil_r|done]. Qed.

Lemma elem_of_selectedFrom t opts k i :
  i ∈ selectedFrom t opts k <->
  exists o, k <= i /\ opts !! (i - k) = Some o /\ hasOptionToken t o = true.
Proof.
  revert k. induction opts as [|opt rest IH]; intros k; simpl.
  - split; [by intros ?%elem_of_nil|]. by intros (o & _ & ? & _).
  - assert (Hrest : i ∈ selectedFrom t rest (S k) <->
                    exists o, k < i /\ (opt :: rest) !! (i - k) = Some o
                              /\ hasOptionToken t o = true).
    { rewrite IH. split; intros (o & Hk & Hl & Ht); exists o.
      - split; [lia|]. split; [|done].
        replace (i - k) with (S (i - S k)) by lia. done.
      - split; [lia|]. split; [|done].
        replace (i - k) with (S (i - S k)) in Hl by lia. done. }
    destruct (truthy opt && hasOptionToken t opt) eqn:E.
    + apply andb_true_iff in E as [_ E]. rewrite elem_of_cons, Hrest. split.
      * intros [->|(o & Hk & Hl & Ht)].
        -- exists opt. rewrite Nat.sub_diag. done.
        -- exists o. split; [lia|done].
      * intros (o & Hk & Hl & Ht).
        destruct (decide (i = k)) as [->|Hne]; [by left|].
        right. exists o. split; [lia|done].
    + rewrite Hrest. split.
      * intros (o & Hk & Hl & Ht). exists o. split; [lia|done].
      * intros (o & Hk & Hl & Ht).
        destruct (decide (i = k)) as [->|Hne].
        -- rewrite Nat.sub_diag in Hl. injection Hl as ->.
           rewrite Ht, (hasOptionToken_truthy _ _ Ht) in E. done.
        -- exists o. split; [lia|done].
Qed.

Lemma reconcile_selectionOf cat t :
  selectionOf (reconcileSelectionFromText cat t) t.
Proof.
  intros i. unfold reconcileSelectionFromText. simpl.
  rewrite elem_of_selectedFrom. rewrite Nat.sub_0_r.
  split; intros (o & H); exists o.
  - destruct H as (_ & Hl & Ht). by rewrite hasOptionToken_trim in Ht.
  - destruct H as (Hl & Ht). rewrite hasOptionToken_trim. split; [lia|done].
Qed.

Lemma reconcile_id cat t :
  Category.id (reconcileSelectionFromText cat t) = Category.id cat.
Proof. done. Qed.

Lemma reconcile_options cat t :
  Category.options (reconcileSelectionFromText cat t) = Category.options cat.
Proof. done. Qed.

(** The indices are pushed in increasing order, from [k] on. *)
Lemma selectedFrom_lower t opts k i : i ∈ selectedFrom t opts k -> k <= i.
Proof. rewrite elem_of_selectedFrom. by intros (o & H & _). Qed.

Lemma selectedFrom_sorted t opts k : StronglySorted lt (selectedFrom t opts k).
Proof.
  revert k. induction opts as [|opt rest IH]; intros k; simpl; [constructor|].
  destruct (truthy opt && hasOptionToken t opt); [|apply IH].
  constructor; [apply IH|].
  apply Forall_forall. intros i Hi%selectedFrom_lower. lia.
Qed.

Lemma selectedFrom_NoDup t opts k : NoDup (selectedFrom t opts k).
Proof.
  revert k. induction opts as [|opt rest IH]; intros k; simpl; [constructor|].
  destruct (truthy opt && hasOptionToken t opt); [|apply IH].
  constructor; [|apply IH]. intros Hi%selectedFrom_lower. lia.
Qed.

(** With an empty text nothing is selected. *)
Lemma selectedFrom_nil opts k : selectedFrom [] opts k = [].
Proof.
  revert k. induction opts as [|opt rest IH]; intros k; simpl; [done|].
  rewrite hasOptionToken_nil_l, andb_false_r. apply IH.
Qed.

End ReconcileFacts.

(** ** Handlers and the invariant *)

Section HandlerFacts.

Implicit Types (cat c : Category.t) (cats : list Category.t)
  (outs : gmap (list N) Output.t) (catId t opt : list N) (st : State)
  (idx : nat) (checked selectAll : bool).

Lemma outText_commit catId next outs :
  is_Some (outs !! catId) -> outText catId (commitText catId next outs) = next.
Proof.
  intros [out E]. unfold outText. by rewrite commitText_lookup, E.
Qed.

Lemma outText_commit_ne catId id' next outs :
  catId <> id' -> outText id' (commitText catId next outs) = outText id' outs.
Proof. intros Hne. unfold outText. by rewrite commitText_lookup_ne. Qed.

Lemma outText_pushUndo catId id' p outs :
  outText id' (pushUndo catId p outs) = outText id' outs.
Proof.
  unfold outText. destruct (decide (catId = id')) as [<-|Hne].
  - rewrite pushUndo_lookup. by destruct (outs !! catId).
  - by rewrite pushUndo_lookup_ne.
Qed.

Lemma pushUndo_is_Some catId p outs :
  is_Some (outs !! catId) -> is_Some (pushUndo catId p outs !! catId).
Proof. intros [out E]. rewrite pushUndo_lookup, E. by eexists. Qed.

(** The entry after "push unless unchanged". *)
Lemma guarded_push_is_Some (b : bool) catId p outs :
  is_Some (outs !! catId) ->
  is_Some ((if b then outs else pushUndo catId p outs) !! catId).
Proof. destruct b; [done|apply pushUndo_is_Some]. Qed.

Lemma outText_guarded_push (b : bool) catId id' p outs :
  outText id' (if b then outs else pushUndo catId p outs) = outText id' outs.
Proof. destruct b; [done|apply outText_pushUndo]. Qed.

Lemma applyLeftToggle_skip cat idx checked outs :
  (forall o, Category.options cat !! idx = Some o -> o = []) ->
  applyLeftToggle cat idx checked outs = (cat, ensureOutputEntry cat outs).
Proof.
  intros H. unfold applyLeftToggle.
  destruct (Category.options cat !! idx) as [o|]; [|done].
  specialize (H _ eq_refl). by subst o.
Qed.

Lemma applyLeftToggle_run cat idx checked outs opt :
  Category.options cat !! idx = Some opt -> opt <> [] ->
  let prev := outText (Category.id cat) outs in
  let next := if checked then addOptionToken prev opt
              else removeOptionToken prev opt in
  applyLeftToggle cat idx checked outs =
    (reconcileSelectionFromText cat next,
     commitText (Category.id cat) next
       (if str_eqb next prev then ensureOutputEntry cat outs
        else pushUndo (Category.id cat) prev (ensureOutputEntry cat outs))).
Proof.
  intros Hopt Hne. unfold applyLeftToggle. rewrite Hopt.
  apply truthy_true in Hne as ->. cbn [negb].
  by rewrite outText_ensure.
Qed.

Lemma applyLeftToggle_text cat idx checked outs opt :
  Category.options cat !! idx = Some opt -> opt <> [] ->
  outText (Category.id cat) (applyLeftToggle cat idx checked outs).2 =
  if checked then addOptionToken (outText (Category.id cat) outs) opt
  else removeOptionToken (outText (Category.id cat) outs) opt.
Proof.
  intros Hopt Hne. rewrite (applyLeftToggle_run _ _ _ _ _ Hopt Hne). cbn [snd].
  apply outText_commit, guarded_push_is_Some, ensure_is_Some.
Qed.

Lemma applyLeftToggle_settles cat idx checked outs :
  settles (Category.id cat) cat outs
    (applyLeftToggle cat idx checked outs).1 (applyLeftToggle cat idx checked outs).2.
Proof.
  destruct (Category.options cat !! idx) as [opt|] eqn:Hopt;
    [destruct opt as [|c0 o0] eqn:Eo|].
  - rewrite applyLeftToggle_skip by (intros; congruence). cbn [fst snd].
    split; [done|]. split; [intros; apply outText_ensure|].
    left. split; [done|apply outText_ensure].
  - rewrite <- Eo in *. assert (opt <> []) as Hne by (subst; done).
    rewrite (applyLeftToggle_run _ _ _ _ _ Hopt Hne). cbn [fst snd].
    split; [done|]. split.
    + intros id' Hne'. rewrite outText_commit_ne by done.
      by rewrite outText_guarded_push, outText_ensure.
    + right. rewrite outText_commit
        by apply guarded_push_is_Some, ensure_is_Some.
      apply reconcile_selectionOf.
  - rewrite applyLeftToggle_skip by (intros; congruence). cbn [fst snd].
    split; [done|]. split; [intros; apply outText_ensure|].
    left. split; [done|apply outText_ensure].
Qed.

Lemma applyLeftAllClear_settles cat selectAll outs :
  settles (Category.id cat) cat outs
    (applyLeftAllClear cat selectAll outs).1 (applyLeftAllClear cat selectAll outs).2.
Proof.
  unfold applyLeftAllClear. cbn [fst snd].
  split; [done|]. split.
  - intros id' Hne'. rewrite outText_commit_ne by done.
    by rewrite outText_guarded_push, outText_ensure.
  - right. rewrite outText_commit
      by apply guarded_push_is_Some, ensure_is_Some.
    apply reconcile_selectionOf.
Qed.

(** Writing back a settled category keeps the invariant. *)
Lemma consistent_update st catId cat c' outs' :
  findCat catId (categories st) = Some cat -> uniqueIds st -> consistent st ->
  settles catId cat (outputsByCatId st) c' outs' ->
  consistent (mkState (putCat catId c' (categories st)) outs').
Proof.
  intros [Hin Hid]%findCat_Some Hu Hc (Hid' & Hframe & Hsel) c Hmem.
  cbn [categories outputsByCatId] in *.
  apply elem_of_putCat in Hmem; [|exact Hu].
  destruct Hmem as [->|[Hmem Hne]].
  - rewrite Hid'. destruct Hsel as [[-> ->]|Hsel]; [|done].
    rewrite <- Hid. by apply Hc.
  - rewrite Hframe by done. by apply Hc.
Qed.

End HandlerFacts.

Section Preservation.

Implicit Types (cat c : Category.t) (cats : list Category.t)
  (outs : gmap (list N) Output.t) (catId t v : list N) (st : State)
  (idx : nat) (checked : bool).

Lemma toggleOption_unfold catId idx checked st :
  toggleOption catId idx checked st =
  match findCat catId (categories st) with
  | None => st
  | Some cat =>
      mkState
        (putCat catId (applyLeftToggle cat idx checked (outputsByCatId st)).1
           (categories st))
        (applyLeftToggle cat idx checked (outputsByCatId st)).2
  end.
Proof.
  unfold toggleOption. destruct (findCat catId (categories st)); [|done].
  by destruct (applyLeftToggle _ _ _ _).
Qed.

Lemma toggleAll_unfold catId st :
  toggleAll catId st =
  match findCat catId (categories st) with
  | None => st
  | Some cat =>
      if length (Category.options cat) =? 0 then st
      else
        mkState
          (putCat catId
             (applyLeftAllClear cat (negb (isAllSelected cat)) (outputsByCatId st)).1
             (categories st))
          (applyLeftAllClear cat (negb (isAllSelected cat)) (outputsByCatId st)).2
  end.
Proof.
  unfold toggleAll. destruct (findCat catId (categories st)); [|done].
  destruct (_ =? 0); [done|]. by destruct (applyLeftAllClear _ _ _).
Qed.

Lemma toggleOption_consistent catId idx checked st :
  uniqueIds st -> consistent st -> consistent (toggleOption catId idx checked st).
Proof.
  intros Hu Hc. rewrite toggleOption_unfold.
  destruct (findCat catId (categories st)) as [cat|] eqn:E; [|done].
  apply (consistent_update st catId cat); try done.
  apply findCat_Some in E as [_ <-]. apply applyLeftToggle_settles.
Qed.

Lemma toggleAll_consistent catId st :
  uniqueIds st -> consistent st -> consistent (toggleAll catId st).
Proof.
  intros Hu Hc. rewrite toggleAll_unfold.
  destruct (findCat catId (categories st)) as [cat|] eqn:E; [|done].
  destruct (_ =? 0); [done|].
  apply (consistent_update st catId cat); try done.
  apply findCat_Some in E as [_ <-]. apply applyLeftAllClear_settles.
Qed.

Lemma outText_insert catId out outs : outText catId (<[catId := out]> outs) = Output.text out.
Proof. unfold outText. by rewrite lookup_insert_eq. Qed.

Lemma outText_insert_ne catId id' out outs :
  catId <> id' -> outText id' (<[catId := out]> outs) = outText id' outs.
Proof. intros Hne. unfold outText. by rewrite lookup_insert_ne. Qed.

Lemma onTextareaInput_consistent catId v st :
  uniqueIds st -> consistent st -> consistent (onTextareaInput catId v st).
Proof.
  intros Hu Hc. unfold onTextareaInput.
  destruct (findCat catId (categories st)) as [cat|] eqn:E; [|done].
  destruct (ensureOutputEntry cat (outputsByCatId st) !! catId) as [o|]; [|done].
  destruct (if str_eqb _ _ then _ else _) as [u lastv].
  apply (consistent_update st catId cat); try done.
  apply findCat_Some in E as [_ Hid]. split; [done|]. split.
  - intros id' Hne. rewrite outText_insert_ne by done. apply outText_ensure.
  - right. rewrite outText_insert. apply reconcile_selectionOf.
Qed.

Lemma clearOutput_consistent catId st :
  uniqueIds st -> consistent st -> consistent (clearOutput catId st).
Proof.
  intros Hu Hc. unfold clearOutput.
  destruct (findCat catId (categories st)) as [cat|] eqn:E; [|done].
  destruct (outputsByCatId st !! catId) as [out|] eqn:Eo; [|done].
  apply (consistent_update st catId cat); try done.
  apply findCat_Some in E as [_ Hid]. split; [done|]. split.
  - intros id' Hne. rewrite outText_commit_ne by done. apply outText_pushUndo.
  - right. rewrite outText_commit by (apply pushUndo_is_Some; by rewrite Eo).
    apply reconcile_selectionOf.
Qed.

Lemma undoOutput_consistent catId st :
  uniqueIds st -> consistent st -> consistent (undoOutput catId st).
Proof.
  intros Hu Hc. unfold undoOutput.
  destruct (findCat catId (categories st)) as [cat|] eqn:E; [|done].
  destruct (outputsByCatId st !! catId) as [out|] eqn:Eo; [|done].
  destruct (rev (Output.undo out)) as [|prev rest]; [done|].
  apply (consistent_update st catId cat); try done.
  apply findCat_Some in E as [_ Hid]. split; [done|]. split.
  - intros id' Hne. by rewrite outText_insert_ne.
  - right. rewrite outText_insert. apply reconcile_selectionOf.
Qed.

Lemma saveBulkModal_consistent catId n l st :
  uniqueIds st -> consistent st -> consistent (saveBulkModal catId n l st).
Proof.
  intros Hu Hc. unfold saveBulkModal.
  destruct (findCat catId (categories st)) as [cat|] eqn:E; [|done].
  apply (consistent_update st catId cat); try done.
  apply findCat_Some in E as [_ Hid]. split; [done|]. split.
  - intros id' Hne. apply outText_ensure.
  - right. cbn [Category.id]. rewrite Hid, !outText_ensure.
    apply reconcile_selectionOf.
Qed.

(** The loop of [init] changes no text; it re-derives the selection of the
    categories with a non-empty text and keeps the others as they are. *)
Lemma initLoop_spec cats outs :
  (forall id', outText id' (initLoop cats outs).2 = outText id' outs)
  /\ Forall2 (fun c c' =>
       (c' = c /\ outText (Category.id c) outs = [])
       \/ c' = reconcileSelectionFromText c (outText (Category.id c) outs))
       cats (initLoop cats outs).1.
Proof.
  revert outs. induction cats as [|c r IH]; intros outs; simpl.
  - split; [done|constructor].
  - destruct (IH (ensureOutputEntry c outs)) as [Ht Hf].
    destruct (initLoop r (ensureOutputEntry c outs)) as [r' outs'] eqn:E.
    cbn [fst snd] in *. split.
    + intros id'. by rewrite Ht, outText_ensure.
    + constructor.
      * rewrite outText_ensure.
        destruct (truthy (outText (Category.id c) outs)) eqn:Et; [by right|].
        left. by apply truthy_false in Et.
      * eapply Forall2_impl; [exact Hf|]. intros a b. simpl.
        by rewrite !outText_ensure.
Qed.

Lemma init_consistent stored defaults outs :
  (forall cs c, stored = Some cs -> c ∈ cs -> outText (Category.id c) outs = [] ->
     selectionOf c []) ->
  consistent (init stored defaults outs).
Proof.
  intros Hstored. unfold init.
  set (cats := match stored with Some cs => cs | None => _ end).
  assert (Hcats : forall c, c ∈ cats -> outText (Category.id c) outs = [] ->
                    selectionOf c []).
  { subst cats. destruct stored as [cs|]; [by eauto|].
    intros c (d & -> & _)%list_elem_of_fmap _ i. simpl.
    split; [by intros ?%elem_of_nil|]. intros (o & _ & H).
    by rewrite hasOptionToken_nil_l in H. }
  clearbody cats. destruct (initLoop_spec cats outs) as [Ht Hf].
  destruct (initLoop cats outs) as [cats' outs'] eqn:E. cbn [fst snd] in *.
  intros c' Hc'. cbn [categories outputsByCatId] in *.
  apply list_elem_of_lookup in Hc' as [k Hk].
  destruct (Forall2_lookup_r _ _ _ _ _ Hf Hk) as (c & Hc & Hrel).
  rewrite Ht. destruct Hrel as [[-> Hnil]| ->].
  - rewrite Hnil. apply Hcats; [|done]. by eapply list_elem_of_lookup_2.
  - apply reconcile_selectionOf.
Qed.

Lemma reload_consistent st : consistent st -> consistent (run ActReload st).
Proof.
  intros Hc. apply init_consistent. intros cs c [= <-] Hin Hnil.
  rewrite <- Hnil. by apply Hc.
Qed.

(** No handler changes the ids of the categories or their order. *)
Lemma initLoop_ids cats outs :
  Category.id <$> (initLoop cats outs).1 = Category.id <$> cats.
Proof.
  revert outs. induction cats as [|c r IH]; intros outs; simpl; [done|].
  specialize (IH (ensureOutputEntry c outs)).
  destruct (initLoop r (ensureOutputEntry c outs)) as [r' outs'].
  cbn [fst] in *. rewrite !fmap_cons, IH. f_equal.
  by destruct (truthy _).
Qed.

Lemma run_ids a st :
  Category.id <$> categories (run a st) = Category.id <$> categories st.
Proof.
  destruct a as [c idx checked|c|c v|c|c|c n l|]; simpl.
  - rewrite toggleOption_unfold.
    destruct (findCat c (categories st)) as [cat|] eqn:E; [|done].
    apply findCat_Some in E as [_ Hid]. cbn [categories].
    apply putCat_ids. rewrite <- Hid. apply applyLeftToggle_settles.
  - rewrite toggleAll_unfold.
    destruct (findCat c (categories st)) as [cat|] eqn:E; [|done].
    destruct (_ =? 0); [done|].
    apply findCat_Some in E as [_ Hid]. cbn [categories].
    apply putCat_ids. rewrite <- Hid. apply applyLeftAllClear_settles.
  - unfold onTextareaInput.
    destruct (findCat c (categories st)) as [cat|] eqn:E; [|done].
    destruct (ensureOutputEntry cat (outputsByCatId st) !! c); [|done].
    destruct (if str_eqb _ _ then _ else _).
    apply findCat_Some in E as [_ Hid]. by apply putCat_ids.
  - unfold clearOutput.
    destruct (findCat c (categories st)) as [cat|] eqn:E; [|done].
    destruct (outputsByCatId st !! c); [|done].
    apply findCat_Some in E as [_ Hid]. by apply putCat_ids.
  - unfold undoOutput.
    destruct (findCat c (categories st)) as [cat|] eqn:E; [|done].
    destruct (outputsByCatId st !! c) as [out|]; [|done].
    destruct (rev (Output.undo out)); [done|].
    apply findCat_Some in E as [_ Hid]. by apply putCat_ids.
  - unfold saveBulkModal.
    destruct (findCat c (categories st)) as [cat|] eqn:E; [|done].
    apply findCat_Some in E as [_ Hid]. by apply putCat_ids.
  - unfold init. pose proof (initLoop_ids (categories st) (outputsByCatId st)) as H.
    by destruct (initLoop (categories st) (outputsByCatId st)).
Qed.

Lemma run_uniqueIds a st : uniqueIds st -> uniqueIds (run a st).
Proof. unfold uniqueIds. by rewrite run_ids. Qed.

Lemma run_consistent a st : uniqueIds st -> consistent st -> consistent (run a st).
Proof.
  intros Hu Hc. destruct a as [c idx checked|c|c v|c|c|c n l|].
  - by apply toggleOption_consistent.
  - by apply toggleAll_consistent.
  - by apply onTextareaInput_consistent.
  - by apply clearOutput_consistent.
  - by apply undoOutput_consistent.
  - by apply saveBulkModal_consistent.
  - by apply reload_consistent.
Qed.

(** The invariant holds along every sequence of gestures. *)
Lemma runs_consistent (l : list action) st :
  uniqueIds st -> consistent st ->
  consistent (foldl (fun s a => run a s) st l).
Proof.
  revert st. induction l as [|a l IH]; intros st Hu Hc; [done|].
  simpl. apply IH; [by apply run_uniqueIds|by apply run_consistent].
Qed.

End Preservation.

(** ** Undo *)

Section UndoFacts.

Implicit Types (cat c : Category.t) (cats : list Category.t)
  (outs : gmap (list N) Output.t) (catId t v prev next : list N) (st : State)
  (idx : nat) (checked selectAll : bool) (u : list (list N)).


Lemma pushed_then_committed cat next prev outs :
  commitText (Category.id cat) next
    (pushUndo (Category.id cat) prev (ensureOutputEntry cat outs))
    !! Category.id cat
  = Some (Output.mk next true
            (pushBounded (Output.undo (default emptyOutput (outs !! Category.id cat)))
               prev) next).
Proof. by rewrite commitText_lookup, pushUndo_lookup, ensure_lookup. Qed.

Lemma applyLeftAllClear_run cat selectAll outs :
  let prev := outText (Category.id cat) outs in
  let opts := filter (fun s => truthy s = true) (Category.options cat) in
  let next := if selectAll then foldl addOptionToken prev opts
              else foldl removeOptionToken prev opts in
  applyLeftAllClear cat selectAll outs =
    (reconcileSelectionFromText cat next,
     commitText (Category.id cat) next
       (if str_eqb next prev then ensureOutputEntry cat outs
        else pushUndo (Category.id cat) prev (ensureOutputEntry cat outs))).
Proof. unfold applyLeftAllClear. by rewrite outText_ensure. Qed.


Lemma undoOutput_pop catId st cat out prev rest :
  findCat catId (categories st) = Some cat ->
  outputsByCatId st !! catId = Some out ->
  rev (Output.undo out) = prev :: rest ->
  undoOutput catId st =
    mkState (putCat catId (reconcileSelectionFromText cat prev) (categories st))
      (<[catId := Output.mk prev true (rev rest) prev]> (outputsByCatId st)).
Proof. intros Hc Ho Hr. unfold undoOutput. by rewrite Hc, Ho, Hr. Qed.



End UndoFacts.

Section Observed.

Implicit Types (cat c : Category.t) (outs : gmap (list N) Output.t)
  (catId v prev next : list N) (st : State).

Lemma observed_ensure cat outs : observed outs -> observed (ensureOutputEntry cat outs).
Proof.
  intros H. unfold ensureOutputEntry.
  destruct (outs !! Category.id cat); [done|]. by apply map_Forall_insert_2.
Qed.

Lemma observed_pushUndo catId prev outs : observed outs -> observed (pushUndo catId prev outs).
Proof.
  intros H. unfold pushUndo. destruct (outs !! catId) as [out|] eqn:E; [|done].
  apply map_Forall_insert_2; [|done]. exact (H _ _ E).
Qed.

Lemma observed_commitText catId next outs : observed outs -> observed (commitText catId next outs).
Proof.
  intros H. unfold commitText. destruct (outs !! catId); [|done].
  by apply map_Forall_insert_2.
Qed.

Lemma observed_initLoop cats outs : observed outs -> observed (initLoop cats outs).2.
Proof.
  revert outs. induction cats as [|c r IH]; intros outs H; simpl; [done|].
  specialize (IH _ (observed_ensure c _ H)).
  by destruct (initLoop r (ensureOutputEntry c outs)).
Qed.

(** Every handler keeps the last observed value of every entry equal to its
    text. *)
Lemma run_observed a st :
  observed (outputsByCatId st) -> observed (outputsByCatId (run a st)).
Proof.
  intros H. destruct a as [c idx checked|c|c v|c|c|c n l|]; simpl.
  - rewrite toggleOption_unfold.
    destruct (findCat c (categories st)) as [cat|]; [|done].
    cbn [outputsByCatId]. unfold applyLeftToggle.
    destruct (Category.options cat !! idx) as [opt|]; [|by apply observed_ensure].
    destruct (truthy opt); cbn [negb snd]; [|by apply observed_ensure].
    apply observed_commitText.
    destruct (str_eqb _ _); [|apply observed_pushUndo]; by apply observed_ensure.
  - rewrite toggleAll_unfold.
    destruct (findCat c (categories st)) as [cat|]; [|done].
    destruct (_ =? 0); [done|]. cbn [outputsByCatId].
    unfold applyLeftAllClear. cbn [snd]. apply observed_commitText.
    destruct (str_eqb _ _); [|apply observed_pushUndo]; by apply observed_ensure.
  - unfold onTextareaInput.
    destruct (findCat c (categories st)) as [cat|]; [|done].
    destruct (ensureOutputEntry cat (outputsByCatId st) !! c) as [o|]; [|done].
    destruct (str_eqb (Output.lastValue o) v) eqn:Ev; cbn [outputsByCatId].
    + apply str_eqb_eq in Ev.
      apply map_Forall_insert_2; [done|by apply observed_ensure].
    + apply map_Forall_insert_2; [done|by apply observed_ensure].
  - unfold clearOutput.
    destruct (findCat c (categories st)) as [cat|]; [|done].
    destruct (outputsByCatId st !! c) as [out|]; [|done].
    cbn [outputsByCatId]. by apply observed_commitText, observed_pushUndo.
  - unfold undoOutput.
    destruct (findCat c (categories st)) as [cat|]; [|done].
    destruct (outputsByCatId st !! c) as [out|]; [|done].
    destruct (rev (Output.undo out)); [done|].
    cbn [outputsByCatId]. by apply map_Forall_insert_2.
  - unfold saveBulkModal.
    destruct (findCat c (categories st)) as [cat|]; [|done].
    cbn [outputsByCatId]. by apply observed_ensure.
  - unfold init. pose proof (observed_initLoop (categories st) _ H) as Hi.
    by destruct (initLoop (categories st) (outputsByCatId st)).
Qed.

End Observed.

(** ** Snapshots *)

Section SnapshotFacts.

(** Two decimal digits, zero-padded, for every number below 100. *)
Lemma padStart2_digits n :
  n < 100 ->
  padStart2 (String_ n) = [N.of_nat (48 + n / 10); N.of_nat (48 + n mod 10)].
Proof.
  intros Hn.
  assert (H : forallb (fun k => str_eqb (padStart2 (String_ k))
                         [N.of_nat (48 + k / 10); N.of_nat (48 + k mod 10)])
                (seq 0 100) = true) by (vm_compute; reflexivity).
  rewrite forallb_forall in H. apply str_eqb_eq, H, in_seq. lia.
Qed.

Lemma getHistory_setHistory d l ls : getHistory d (setHistory d l ls) = l.
Proof. unfold getHistory, setHistory. by rewrite lookup_insert_eq. Qed.

End SnapshotFacts.

(** ** The scenarios of the specification *)

Section Scenarios.

Let style : Category.t :=
  Category.mk (lit "c1") (lit "Style")
    [lit "brutalist"; lit "neo-futurist, glassy"] [].

Example scenario_toggles :
  let s1 := toggleOption (lit "c1") 0 true (mkState [style] ∅) in
  let s2 := toggleOption (lit "c1") 1 true s1 in
  let s3 := toggleOption (lit "c1") 0 false s2 in
  textOf (lit "c1") s1 = lit "brutalist"
  /\ textOf (lit "c1") s2 = lit "brutalist, neo-futurist, glassy"
  /\ textOf (lit "c1") s3 = lit "neo-futurist, glassy"
  /\ Category.selected <$> categories s3 = [[1]].
Proof. repeat split; vm_compute; reflexivity. Qed.

Example scenario_custom_text :
  Category.selected
    (reconcileSelectionFromText
       (Category.mk (lit "c1") (lit "Style") [lit "brutalist"] [])
       (lit "brutalist, hand-carved stone")) = [0].
Proof. vm_compute; reflexivity. Qed.

Example scenario_all_then_clear :
  let cat := Category.mk (lit "c2") (lit "Notes")
               [lit "opt1"; lit "opt2"; lit "opt3"] [] in
  let outs := {[ lit "c2" := Output.mk (lit "custom note") true []
                               (lit "custom note") ]} in
  let all := applyLeftAllClear cat true outs in
  outText (lit "c2") all.2 = lit "custom note, opt1, opt2, opt3"
  /\ outText (lit "c2") (applyLeftAllClear all.1 false all.2).2
     = lit "custom note".
Proof. repeat split; vm_compute; reflexivity. Qed.

End Scenarios.

(** * The properties of the specification *)

(** C1. The matcher should not find an option after it was removed. It still
    does when the option stands twice at the start of the text: step 1 of
    [removeOptionToken] takes the first copy together with its separator, and
    step 2 looks for the option after a separator only, so the second copy,
    now at the start, stays. Step 1 also has no boundary after the option: it
    cuts the option out of a custom text that merely starts with it, and the
    rest of that text is then taken for the token. *)
Theorem remove_keeps_second_copy :
  hasOptionToken (lit "a, a") (lit "a") = true
  /\ removeOptionToken (lit "a, a") (lit "a") = lit "a"
  /\ hasOptionToken (removeOptionToken (lit "a, a") (lit "a")) (lit "a") = true
  /\ removeOptionToken (lit "aa, a") (lit "a") = lit "a"
  /\ hasOptionToken (removeOptionToken (lit "aa, a") (lit "a")) (lit "a") = true.
Proof. repeat split; vm_compute; reflexivity. Qed.

(** C2, as stated, fails: repeated white space in the text is collapsed by the
    tidy-up, an option that is a prefix of the text is cut out of it, an
    option that is already present is removed, and an option with white space
    at its end is added but not found again. *)
Lemma on_then_off_changes_text :
  let cat := Category.mk (lit "c1") (lit "Style") [lit "dark"; lit "dim "] [] in
  let start t := {[ lit "c1" := Output.mk t true [] t ]} in
  outText (lit "c1") (onThenOff cat 0 (start (lit "a  b"))).2 = lit "a b"
  /\ outText (lit "c1") (onThenOff cat 0 (start (lit "darker"))).2 = lit "er"
  /\ outText (lit "c1") (onThenOff cat 0 (start (lit "dark"))).2 = []
  /\ outText (lit "c1") (onThenOff cat 1 (start [])).2 = lit "dim".
Proof. repeat split; vm_compute; reflexivity. Qed.

(** C2 (amended). Toggling an option on and then off returns the text to
    exactly what it was, provided that (when the index names a non-empty
    option) the option has no white space around it and is not present in the
    text, the text is one that the tidy-up of [removeOptionToken] leaves alone
    (trimmed, no leading, trailing or doubled separator, no repeated white
    space), and in the text after toggling on the removal patterns find the
    appended token only. *)
Theorem on_then_off_restores_text (cat : Category.t) (idx : nat)
    (outs : gmap (list N) Output.t) :
  (forall o, Category.options cat !! idx = Some o -> o <> [] ->
     trim o = o
     /\ hasOptionToken (outText (Category.id cat) outs) o = false
     /\ tidy (outText (Category.id cat) outs)
     /\ appendedOnly (outText (Category.id cat) outs) o) ->
  outText (Category.id cat) (onThenOff cat idx outs).2
  = outText (Category.id cat) outs.
Proof.
  intros H. unfold onThenOff.
  destruct (Category.options cat !! idx) as [o|] eqn:Hopt;
    [destruct (decide (o = [])) as [->|Hne]|].
  - rewrite (applyLeftToggle_skip cat) by (intros; congruence). cbn [fst snd].
    rewrite applyLeftToggle_skip by (intros; congruence). cbn [snd].
    by rewrite !outText_ensure.
  - destruct (H o eq_refl Hne) as (Ho & Habs & Htidy & Happ).
    pose proof (applyLeftToggle_text cat idx true outs o Hopt Hne) as Hon.
    rewrite (applyLeftToggle_run cat idx true outs o Hopt Hne) in *.
    cbn [fst snd] in *.
    set (cat1 := reconcileSelectionFromText cat _) in *.
    change (Category.id cat) with (Category.id cat1).
    rewrite (applyLeftToggle_text cat1 idx false _ o Hopt Hne).
    change (Category.id cat1) with (Category.id cat). rewrite Hon.
    by apply add_remove_roundtrip.
  - rewrite (applyLeftToggle_skip cat) by (intros; congruence). cbn [fst snd].
    rewrite applyLeftToggle_skip by (intros; congruence). cbn [snd].
    by rewrite !outText_ensure.
Qed.

Lemma on_then_off_restores_text_witness :
  outText (Category.id styleCat) (onThenOff styleCat 1 styleOuts).2
  = outText (Category.id styleCat) styleOuts.
Proof.
  apply on_then_off_restores_text.
  intros o Ho _. injection Ho as <-. unfold tidy, appendedOnly.
  repeat split; vm_compute; reflexivity.
Defined.

(** C3, as stated, fails at startup: [init] derives the selection only of the
    categories whose stored text is not empty, so a stored selection next to
    an empty stored text is kept, although the text holds none of the
    options. *)
Lemma startup_keeps_stored_selection :
  categories (init (Some [darkCat]) [] ∅) = [darkCat]
  /\ textOf (lit "c1") (init (Some [darkCat]) [] ∅) = []
  /\ Category.selected darkCat = [0]
  /\ hasOptionToken [] (lit "dark") = false.
Proof. repeat split; vm_compute; reflexivity. Qed.

(** C3 (amended). When the category ids are unique, every gesture (checkbox
    toggle, All/Clear, direct text edit, clear, undo, bulk edit of the option
    list, reopening the page on the stored documents) keeps the invariant:
    if, before it, the selection of every category was exactly the set of
    indices whose option is a token of the category's text, then so it is
    after it. Startup establishes the invariant when every stored category
    with an empty stored text has a stored selection that fits the empty
    text (none selected), so always on a first start from the defaults; it
    derives the selection of the categories with a non-empty text only. *)
Theorem selection_invariant_preserved :
  (forall (a : action) (st : State),
     uniqueIds st -> consistent st -> consistent (run a st))
  /\ (forall (stored : option (list Category.t)) (defaults : list Category.t)
         (outs : gmap (list N) Output.t),
        (forall cs c, stored = Some cs -> c ∈ cs ->
           outText (Category.id c) outs = [] -> selectionOf c []) ->
        consistent (init stored defaults outs)).
Proof.
  split.
  - intros a st Hu Hc. by apply run_consistent.
  - intros stored defaults outs Hstored. by apply init_consistent.
Qed.

Lemma styleState_consistent : consistent styleState.
Proof.
  intros cat ->%list_elem_of_singleton.
  replace styleCat with (reconcileSelectionFromText styleCat (lit "brutalist"))
    by (vm_compute; reflexivity).
  apply reconcile_selectionOf.
Qed.

Lemma selection_invariant_preserved_witness :
  consistent (run (ActToggle (lit "c1") 1 true) styleState)
  /\ consistent (init None [darkCat] darkOuts).
Proof.
  split.
  - apply (proj1 selection_invariant_preserved).
    + apply NoDup_singleton.
    + apply styleState_consistent.
  - apply (proj2 selection_invariant_preserved). intros cs c Hs. discriminate Hs.
Defined.

(** C4, as stated, fails: adding an option with trailing white space twice
    appends it twice; removing an option that stands twice takes one copy at
    a time; and the tidy-up strips one leading separator per call, whatever
    the option. *)
Lemma mutators_not_idempotent :
  addOptionToken [] (lit "a ") = lit "a "
  /\ addOptionToken (addOptionToken [] (lit "a ")) (lit "a ") = lit "a, a "
  /\ removeOptionToken (lit "a, a") (lit "a") = lit "a"
  /\ removeOptionToken (removeOptionToken (lit "a, a") (lit "a")) (lit "a") = []
  /\ removeOptionToken (lit ",,x") (lit "a") = lit ",x"
  /\ removeOptionToken (removeOptionToken (lit ",,x") (lit "a")) (lit "a") = lit "x".
Proof. repeat split; vm_compute; reflexivity. Qed.

(** C4 (amended). [addOptionToken] is idempotent for every text and every
    option without leading or trailing white space (the empty option
    included). *)
Theorem add_idempotent (t o : list N) :
  trim o = o ->
  addOptionToken (addOptionToken t o) o = addOptionToken t o.
Proof.
  intros Ho. destruct o as [|c o'].
  - unfold addOptionToken. cbn [truthy negb]. apply trim_idem.
  - rewrite addOptionToken_has.
    + by apply addOptionToken_trimmed.
    + by apply addOptionToken_present.
Qed.

Lemma add_idempotent_witness :
  addOptionToken (addOptionToken (lit "custom note") (lit "opt1")) (lit "opt1")
  = addOptionToken (lit "custom note") (lit "opt1").
Proof. apply add_idempotent. vm_compute; reflexivity. Defined.

(** C5, as stated, fails for the empty option (which [addOptionToken] does not
    add) and for an option with white space around it (which the trimmed text
    cannot hold at its start). *)
Lemma add_then_absent :
  hasOptionToken (addOptionToken (lit "x") []) [] = false
  /\ hasOptionToken (addOptionToken [] (lit " a")) (lit " a") = false.
Proof. split; vm_compute; reflexivity. Qed.

(** C5 (amended). For every text and every non-empty option without leading
    or trailing white space, the matcher finds the option after it was added. *)
Theorem add_then_present (t o : list N) :
  o <> [] -> trim o = o -> hasOptionToken (addOptionToken t o) o = true.
Proof.
  intros Hne Ho.
  destruct (hasOptionToken (trim t) o) eqn:E.
  - rewrite addOptionToken_has by (by rewrite <- hasOptionToken_trim).
    exact E.
  - by apply addOptionToken_present.
Qed.

Lemma add_then_present_witness :
  hasOptionToken
    (addOptionToken (lit "brutalist") (lit "neo-futurist, glassy"))
    (lit "neo-futurist, glassy") = true.
Proof. apply add_then_present; [done | vm_compute; reflexivity]. Defined.

(** C6, as stated, fails: with the option present, a text with white space
    around it comes back trimmed, not as it was. *)
Lemma add_present_trims :
  hasOptionToken (lit " a") (lit "a") = true
  /\ addOptionToken (lit " a") (lit "a") = lit "a"
  /\ str_eqb (addOptionToken (lit " a") (lit "a")) (lit " a") = false.
Proof. repeat split; vm_compute; reflexivity. Qed.

(** C6 (amended). If the option is already present, [addOptionToken] returns
    the text with the white space around it trimmed, and nothing else
    changed. *)
Theorem add_present_returns_trimmed (t o : list N) :
  hasOptionToken t o = true -> addOptionToken t o = trim t.
Proof.
  intros H. unfold addOptionToken.
  destruct (truthy o); cbn [negb]; [|done].
  by rewrite hasOptionToken_trim, H.
Qed.

Lemma add_present_returns_trimmed_witness :
  addOptionToken (lit " brutalist, hand-carved stone ") (lit "brutalist")
  = trim (lit " brutalist, hand-carved stone ").
Proof. apply add_present_returns_trimmed. vm_compute; reflexivity. Defined.

(** C7, as stated, fails: unchecking an option that is absent from an empty,
    untouched entry leaves the text and the undo stack alone but sets the
    dirty flag. *)
Lemma toggle_without_change_sets_dirty :
  let cat := Category.mk (lit "c1") (lit "Style") [lit "dark"] [0] in
  let outs := {[ lit "c1" := Output.mk [] false [] [] ]} in
  removeOptionToken (outText (lit "c1") outs) (lit "dark") = outText (lit "c1") outs
  /\ Output.dirty <$> outs !! lit "c1" = Some false
  /\ Output.dirty <$> (applyLeftToggle cat 0 false outs).2 !! lit "c1" = Some true
  /\ Category.selected (applyLeftToggle cat 0 false outs).1 = [].
Proof. repeat split; vm_compute; reflexivity. Qed.

(** C7 (amended). When the toggle of a non-empty option computes the text
    that is already there, nothing is pushed onto the undo stack and the text
    and the undo stack of the entry stay as they are, and so does every other
    entry; the entry is created if it was missing, its dirty flag is set, its
    last observed value becomes the text, and the selection is derived from
    the text again. *)
Theorem toggle_without_change (cat : Category.t) (idx : nat) (checked : bool)
    (outs : gmap (list N) Output.t) (opt : list N) :
  Category.options cat !! idx = Some opt -> opt <> [] ->
  (if checked then addOptionToken (outText (Category.id cat) outs) opt
   else removeOptionToken (outText (Category.id cat) outs) opt)
  = outText (Category.id cat) outs ->
  applyLeftToggle cat idx checked outs =
    (reconcileSelectionFromText cat (outText (Category.id cat) outs),
     <[Category.id cat :=
         Output.mk (outText (Category.id cat) outs) true
           (Output.undo (default emptyOutput (outs !! Category.id cat)))
           (outText (Category.id cat) outs)]> outs).
Proof.
  intros Hopt Hne Hsame.
  rewrite (applyLeftToggle_run _ _ _ _ _ Hopt Hne). cbv zeta.
  rewrite Hsame, str_eqb_refl. f_equal.
  unfold commitText. rewrite ensure_lookup.
  unfold ensureOutputEntry.
  destruct (outs !! Category.id cat) as [out|] eqn:E; [done|].
  by rewrite insert_insert_eq.
Qed.

Lemma toggle_without_change_witness :
  (applyLeftToggle darkCat 0 false darkOuts).2 !! lit "c1"
  = Some (Output.mk [] true [lit "dark"] []).
Proof.
  rewrite (toggle_without_change darkCat 0 false darkOuts (lit "dark"));
    [apply lookup_insert_eq | reflexivity | done | vm_compute; reflexivity].
Defined.




(** C9, as stated, fails on "fresh": the id is made of digits of a random
    number and is not compared with the ids in the log. When the generator
    returns one half twice (in base 16: "0.8"), the new entry gets the id of
    the entry that is already there. *)
Lemma save_repeats_id :
  let ls := {[ historyKey morning :=
                 [HistoryEntry.mk (lit "h_8") (lit "09:00:00") (lit "old")] ]} in
  HistoryEntry.id <$>
    getHistory morning (saveSnapshot (lit "0.8") morning (lit "new") ls).2
  = [lit "h_8"; lit "h_8"].
Proof. vm_compute; reflexivity. Qed.

(** C9 (amended). [saveSnapshot] shows its alert and leaves the storage as it
    is exactly when the trimmed summary is empty. Otherwise it shows no alert
    and puts one new entry in front of the log of the current day, so that the
    log reads most recent first; the entry holds the trimmed summary, the
    clock's time as two digits each for hours, minutes and seconds, and the id
    "h_" followed by the third to tenth character of the random number written
    in base 16 (the id is not checked against those in the log); the logs of
    other days are not touched. *)
Theorem save_snapshot_prepends (random16 : list N) (d : Clock)
    (summaryValue : list N) (ls : gmap (list N) (list HistoryEntry.t)) :
  let r := saveSnapshot random16 d summaryValue ls in
  (trim summaryValue = [] /\ r = (Some nothingToSave, ls))
  \/ (trim summaryValue <> []
      /\ r.1 = None
      /\ getHistory d r.2 =
           HistoryEntry.mk (lit "h_" ++ take 8 (drop 2 random16)) (nowTime d)
             (trim summaryValue) :: getHistory d ls
      /\ (forall k, k <> historyKey d -> r.2 !! k = ls !! k)
      /\ (getHours d < 24 -> getMinutes d < 60 -> getSeconds d < 60 ->
          nowTime d =
            [N.of_nat (48 + getHours d / 10); N.of_nat (48 + getHours d mod 10);
             58%N;
             N.of_nat (48 + getMinutes d / 10); N.of_nat (48 + getMinutes d mod 10);
             58%N;
             N.of_nat (48 + getSeconds d / 10); N.of_nat (48 + getSeconds d mod 10)])).
Proof.
  unfold saveSnapshot. cbv zeta.
  destruct (trim summaryValue) as [|c s] eqn:E; [by left|]. right.
  cbn [truthy negb fst snd]. split; [done|]. split; [done|].
  split; [apply getHistory_setHistory|]. split.
  - intros k Hk. unfold setHistory. by rewrite lookup_insert_ne.
  - intros Hh Hm Hs. unfold nowTime.
    rewrite !padStart2_digits by lia. reflexivity.
Qed.

Lemma save_snapshot_prepends_witness :
  getHistory morning (saveSnapshot (lit "0.8") morning (lit " a ") ∅).2
  = [HistoryEntry.mk (lit "h_8") (lit "09:05:07") (lit "a")].
Proof.
  destruct (save_snapshot_prepends (lit "0.8") morning (lit " a ") ∅)
    as [[He _]|(_ & _ & Hh & _)].
  - vm_compute in He. discriminate.
  - rewrite Hh. vm_compute. reflexivity.
Defined.

(** C10. The selection that reconciliation leaves is strictly increasing,
    free of duplicates, and every index in it is within the option list and
    names a non-empty option. *)
Theorem reconciled_selection_sorted (cat : Category.t) (text : list N) :
  let sel := Category.selected (reconcileSelectionFromText cat text) in
  StronglySorted lt sel /\ NoDup sel
  /\ forall i, i ∈ sel ->
       i < length (Category.options cat)
       /\ exists o, Category.options cat !! i = Some o /\ o <> [].
Proof.
  cbn [reconcileSelectionFromText Category.selected].
  split; [apply selectedFrom_sorted|]. split; [apply selectedFrom_NoDup|].
  intros i (o & _ & Hl & Ht)%elem_of_selectedFrom.
  rewrite Nat.sub_0_r in Hl. split.
  - by eapply lookup_lt_Some.
  - exists o. split; [done|]. intros ->. by rewrite hasOptionToken_nil_r in Ht.
Qed.


(** * Further properties of the code *)

(** ** The token matcher, declaratively *)

Section MatcherSpec.

Implicit Types (t o s w : list N) (k : cont) (p : N -> bool) (i : nat).

Lemma star_sound p i s k e :
  star p i s k = Some e ->
  exists w rest, s = w ++ rest /\ Forall (fun c => p c = true) w
    /\ k (i + length w) rest = Some e.
Proof.
  revert i. induction s as [|c s IH]; intros i; simpl.
  - intros H. exists [], []. rewrite Nat.add_0_r. by repeat split.
  - destruct (p c) eqn:Ec.
    + destruct (star p (S i) s k) eqn:E.
      * intros [= ->]. destruct (IH _ E) as (w & rest & -> & Hw & Hk).
        exists (c :: w), rest. split; [done|]. split; [by constructor|].
        simpl. by rewrite <- Nat.add_succ_comm.
      * intros H. exists [], (c :: s). rewrite Nat.add_0_r. by repeat split.
    + intros H. exists [], (c :: s). rewrite Nat.add_0_r. by repeat split.
Qed.

Lemma star_complete p i w rest k :
  Forall (fun c => p c = true) w ->
  is_Some (k (i + length w) rest) ->
  is_Some (star p i (w ++ rest) k).
Proof.
  revert i. induction w as [|c w IH]; intros i Hw Hk.
  - rewrite Nat.add_0_r in Hk. simpl. destruct rest as [|c r]; [done|].
    simpl. destruct (p c); [|done]. by destruct (star p (S i) r k).
  - apply Forall_cons in Hw as [Hc Hw]. simpl. rewrite Hc.
    simpl in Hk. rewrite <- Nat.add_succ_comm in Hk.
    by destruct (IH (S i) Hw Hk) as [e ->].
Qed.

(** The look-ahead of [tokenRegex]. *)
Lemma follow_iff i s :
  is_Some (m (Seq ws (Alt (Cls is_comma) Eos)) i s accept) <-> endAfter s.
Proof.
  unfold ws. cbn [m atleast]. split.
  - intros [e He]. apply star_sound in He as (w & rest & -> & Hw & Hk).
    exists w, rest. split; [done|]. split; [done|].
    destruct rest as [|c r]; [by left|]. right.
    destruct (is_comma c) eqn:Ec; [|done].
    apply N.eqb_eq in Ec as ->. by eexists.
  - intros (w & r & -> & Hw & Hr). apply star_complete; [done|].
    destruct Hr as [->|[r' ->]]; [done|].
    change (is_comma comma) with true. done.
Qed.

(** The option and the look-ahead, at the place where the token starts. *)
Lemma token_here_iff o i s k :
  (forall j s', is_Some (k j s')) ->
  is_Some (m (Seq (Lit o) (Look (Seq ws (Alt (Cls is_comma) Eos)))) i s k)
  <-> exists post, s = o ++ post /\ endAfter post.
Proof.
  intros Hk. cbn [m]. split.
  - destruct (eat o s) as [post|] eqn:E; [|by intros [? ?]].
    apply eat_Some in E as ->.
    destruct (m ws (i + length o) post _) eqn:E2; [|by intros [? ?]].
    intros _. exists post. split; [done|]. apply (follow_iff (i + length o)).
    cbn [m]. by rewrite E2.
  - intros (post & -> & Hpost). rewrite eat_app.
    apply (follow_iff (i + length o)) in Hpost as [e He]. cbn [m] in He.
    rewrite He. apply Hk.
Qed.

Lemma matchAt_token_iff o i s :
  is_Some (matchAt (tokenRegex o) i s) <->
  (i = 0 /\ exists post, s = o ++ post /\ endAfter post)
  \/ (exists w rest post, s = comma :: w ++ rest /\ allSpace w
        /\ rest = o ++ post /\ endAfter post).
Proof.
  unfold matchAt, tokenRegex.
  change (m (Seq ?a ?b) i s accept) with (m a i s (fun j s' => m b j s' accept)).
  set (K := fun j s' => m (Seq (Lit o) _) j s' accept).
  assert (HK : forall j s', is_Some (K j s') <-> exists post, s' = o ++ post /\ endAfter post).
  { intros j s'. apply token_here_iff. by intros. }
  cbn [m]. split.
  - destruct (i =? 0) eqn:Ei.
    + apply Nat.eqb_eq in Ei as ->. destruct (K 0 s) eqn:E0.
      * intros _. left. split; [done|]. apply (HK 0). by rewrite E0.
      * intros [e He]. right. unfold sep, ws in He. cbn [m atleast] in He.
        destruct s as [|c s']; [done|]. destruct (is_comma c) eqn:Ec; [|done].
        apply N.eqb_eq in Ec as ->.
        apply star_sound in He as (w & rest & -> & Hw & Hk).
        assert (is_Some (K (1 + length w) rest)) as (post & -> & Hp)%HK
          by (by rewrite Hk).
        by exists w, (o ++ post), post.
    + intros [e He]. right. unfold sep, ws in He. cbn [m atleast] in He.
      destruct s as [|c s']; [done|]. destruct (is_comma c) eqn:Ec; [|done].
      apply N.eqb_eq in Ec as ->.
      apply star_sound in He as (w & rest & -> & Hw & Hk).
      assert (is_Some (K (S i + length w) rest)) as (post & -> & Hp)%HK
        by (by rewrite Hk).
      by exists w, (o ++ post), post.
  - intros [[-> Hpost]|(w & rest & post & -> & Hw & -> & Hpost)].
    + apply (HK 0) in Hpost as [e ->]. done.
    + assert (Hsep : is_Some (m sep i (comma :: w ++ o ++ post) K)).
      { unfold sep, ws. cbn [m atleast]. change (is_comma comma) with true.
        cbv iota. apply star_complete; [done|]. apply HK. by exists post. }
      destruct (i =? 0); [|done]. by destruct (K i _).
Qed.

Lemma test_iff r s :
  test r s = true <-> exists d, d <= length s /\ is_Some (matchAt r d (drop d s)).
Proof.
  unfold test, search. split.
  - destruct (searchFrom r 0 s) as [[j n]|] eqn:E; [|done]. intros _.
    apply searchFrom_Some in E as (d & -> & Hd & Hm).
    exists d. split; [lia|]. change (0 + d) with d in Hm. by rewrite Hm.
  - intros (d & Hd & [e He]).
    by destruct (searchFrom_is_Some r 0 s d e Hd He) as [? ->].
Qed.

Lemma test_token_iff t o : test (tokenRegex o) t = true <-> tokenIn t o.
Proof.
  rewrite test_iff. split.
  - intros (d & Hd & [[Hd0 (post & Hs & Hp)]|(w & rest & post & Hs & Hw & -> & Hp)]%matchAt_token_iff).
    + subst d. rewrite drop_0 in Hs. exists [], post. split; [done|].
      split; [by left|done].
    + exists (take d t ++ comma :: w), post. split.
      * rewrite <- (take_drop d t) at 1. rewrite Hs.
        by rewrite <- !app_assoc.
      * split; [|done]. right. by exists (take d t), w.
  - intros (pre & post & -> & [->|(p0 & w & -> & Hw)] & Hp).
    + exists 0. split; [lia|]. rewrite drop_0. apply matchAt_token_iff.
      left. split; [done|]. by exists post.
    + exists (length p0). split; [rewrite !length_app; lia|].
      rewrite <- !app_assoc, drop_app_length. apply matchAt_token_iff.
      right. by exists w, (o ++ post), post.
Qed.

End MatcherSpec.

Lemma hasOptionToken_tokenIn (t o : list N) :
  hasOptionToken t o = true <-> o <> [] /\ tokenIn (trim t) o.
Proof.
  unfold hasOptionToken. split.
  - destruct (truthy (trim t)); [|done]. destruct (truthy o) eqn:Eo; [|done].
    cbn [negb orb]. intros H%test_token_iff. split; [by apply truthy_true|done].
  - intros [Hne (pre & post & Ht & Hpre & Hpost)].
    assert (truthy (trim t) = true) as ->.
    { rewrite Ht. apply truthy_true. intros [_ [H _]%app_eq_nil]%app_eq_nil. done. }
    apply truthy_true in Hne as ->. cbn [negb orb].
    apply test_token_iff. by exists pre, post.
Qed.

(** X1. [hasOptionToken] answers true exactly when the option is not empty
    and stands in the trimmed text as a whole token: at the start of the text
    or after a comma and white space, and followed by white space and then
    the end of the text or a comma. *)
Theorem hasOptionToken_whole_token (t o : list N) :
  hasOptionToken t o = true <-> o <> [] /\ tokenIn (trim t) o.
Proof. apply hasOptionToken_tokenIn. Qed.

(** ** Adding keeps the tokens that are there *)

Section AddKeeps.

Implicit Types (t o a b u w x y : list N).

Lemma allSpace_app w w' : allSpace (w ++ w') <-> allSpace w /\ allSpace w'.
Proof. apply Forall_app. Qed.

Lemma comma_not_space : is_space comma = false.
Proof. done. Qed.

Lemma trimmed_last_not_space a c : trimEnd (a ++ [c]) = a ++ [c] -> is_space c = false.
Proof.
  unfold trimEnd. intros H%(f_equal (@rev N)). rewrite rev_involutive in H.
  rewrite rev_app_distr in H. simpl in H. by apply trimStart_fixed_cons in H.
Qed.

Lemma trimEnd_nonspace_cons c u : is_space c = false -> trimEnd (c :: u) = c :: trimEnd u.
Proof. intros Hc. rewrite trimEnd_cons. destruct (trimEnd u); by rewrite ?Hc. Qed.

Lemma trimEnd_allSpace w : allSpace w -> trimEnd w = [].
Proof.
  induction 1 as [|c w Hc _ IH]; [done|]. by rewrite trimEnd_cons, IH, Hc.
Qed.

(** Trimming the end cuts a run of white space off the end. *)
Lemma trimEnd_split u : exists sp, allSpace sp /\ u = trimEnd u ++ sp.
Proof.
  induction u as [|c u (sp & Hsp & IH)]; [exists []; split; [constructor|done]|].
  rewrite trimEnd_cons. destruct (trimEnd u) as [|d v] eqn:E.
  - simpl in IH. subst sp. destruct (is_space c) eqn:Ec.
    + exists (c :: u). split; [by constructor|done].
    + exists u. by split.
  - exists sp. split; [done|]. by rewrite IH at 1.
Qed.

(** A run of white space at the end of "y, c, z" with [c] not white space
    lies in [z]. *)
Lemma space_suffix_inv x sp y c z :
  allSpace sp -> is_space c = false -> x ++ sp = y ++ c :: z ->
  exists z1, z = z1 ++ sp /\ x = y ++ c :: z1.
Proof.
  intros Hsp Hc H. apply app_eq_app in H as [l [[-> H]|[-> H]]].
  - destruct l as [|c' l]; simpl in H.
    + subst sp. apply Forall_cons in Hsp as [Hc' _]. congruence.
    + injection H as -> ->. by exists l.
  - assert (c :: z = drop (length l) sp) as Hd by (by rewrite H, drop_app_length).
    assert (Hin : c ∈ sp).
    { rewrite <- (take_drop (length l) sp), <- Hd. set_solver. }
    unfold allSpace in Hsp. rewrite Forall_forall in Hsp.
    specialize (Hsp _ Hin). simpl in Hsp. congruence.
Qed.

Lemma endAfter_cut_spaces post1 sp : allSpace sp -> endAfter (post1 ++ sp) -> endAfter post1.
Proof.
  intros Hsp (w & r & Heq & Hw & Hr). destruct Hr as [->|[r' ->]].
  - rewrite app_nil_r in Heq. exists post1, []. rewrite app_nil_r.
    split; [done|]. split; [|by left].
    assert (allSpace (post1 ++ sp)) as [? _]%allSpace_app by (by rewrite Heq). done.
  - apply space_suffix_inv in Heq as (z1 & -> & ->); [|done|done].
    exists w, (comma :: z1). split; [done|]. split; [done|]. right. by eexists.
Qed.

Lemma tokenIn_trimEnd u o : o <> [] -> trimEnd o = o -> tokenIn u o -> tokenIn (trimEnd u) o.
Proof.
  intros Hne Ho (pre & post & Hu & Hpre & Hpost).
  destruct (trimEnd_split u) as (sp & Hsp & Hsplit).
  destruct (exists_last Hne) as (o0 & c & ->).
  apply trimmed_last_not_space in Ho as Hc.
  rewrite Hu in Hsplit at 1.
  replace (pre ++ (o0 ++ [c]) ++ post) with ((pre ++ o0) ++ c :: post) in Hsplit
    by (by rewrite <- !app_assoc).
  symmetry in Hsplit.
  apply space_suffix_inv in Hsplit as (post1 & -> & Ht); [|done|done].
  exists pre, post1. split; [by rewrite Ht, <- !app_assoc|].
  split; [done|]. by apply (endAfter_cut_spaces _ sp).
Qed.

Lemma tokenIn_extend b o y : tokenIn b o -> tokenIn (b ++ comma :: y) o.
Proof.
  intros (pre & post & -> & Hpre & (w & r & -> & Hw & Hr)).
  exists pre, (w ++ r ++ comma :: y). split; [by rewrite <- !app_assoc|].
  split; [done|]. exists w, (r ++ comma :: y). split; [done|]. split; [done|].
  right. destruct Hr as [->|[r' ->]]; by eexists.
Qed.

Lemma tokenIn_drop_comma a o :
  last o <> Some comma -> o <> [] -> tokenIn (a ++ [comma]) o -> tokenIn a o.
Proof.
  intros Hlast Hne (pre & post & Heq & Hpre & Hpost).
  destruct (decide (post = [])) as [->|Hpne].
  - rewrite app_nil_r in Heq. exfalso. apply Hlast.
    destruct (exists_last Hne) as (o0 & c & ->).
    rewrite app_assoc in Heq. apply app_inj_tail in Heq as [_ <-].
    by rewrite last_snoc.
  - destruct (exists_last Hpne) as (post0 & c & ->).
    rewrite !app_assoc in Heq. apply app_inj_tail in Heq as [-> <-].
    exists pre, post0. split; [by rewrite <- app_assoc|]. split; [done|].
    destruct Hpost as (w & r & Heq & Hw & Hr).
    destruct Hr as [->|[r' ->]].
    + rewrite (app_nil_r w) in Heq. subst w.
      apply allSpace_app in Hw as [_ Hw]. apply Forall_cons in Hw as [Hw _]. done.
    + destruct (decide (r' = [])) as [->|Hr'].
      * apply app_inj_tail in Heq as [-> _].
        exists w, []. rewrite app_nil_r. split; [done|]. split; [done|by left].
      * destruct (exists_last Hr') as (r0 & c & ->).
        simpl in Heq.
        replace (w ++ comma :: r0 ++ [c]) with ((w ++ comma :: r0) ++ [c]) in Heq
          by (by rewrite <- app_assoc).
        apply app_inj_tail in Heq as [-> _].
        exists w, (comma :: r0). split; [done|]. split; [done|]. right. by eexists.
Qed.

Lemma tokenIn_nonempty t o : o <> [] -> tokenIn t o -> t <> [].
Proof. intros Hne (pre & post & -> & _) [_ [H _]%app_eq_nil]%app_eq_nil. done. Qed.

(** The pattern of the trailing comma matches at a comma that only white
    space follows. *)
Lemma matchAt_trailingComma i s :
  matchAt trailingComma i s =
  match s with
  | c :: w => if is_comma c && forallb is_space w then Some (i + length s) else None
  | [] => None
  end.
Proof.
  unfold matchAt, trailingComma, ws. cbn [m atleast].
  destruct s as [|c w]; [done|]. destruct (is_comma c); [|done]. cbn [andb].
  assert (H : forall j, star is_space j w (fun j' s' => m Eos j' s' accept)
              = if forallb is_space w then Some (j + length w) else None).
  { clear. induction w as [|c w IH]; intros j; simpl.
    - unfold accept. f_equal. lia.
    - destruct (is_space c); [|done]. rewrite IH. cbn [andb].
      destruct (forallb is_space w); [f_equal; lia|done]. }
  rewrite H. destruct (forallb is_space w); [|done]. f_equal. simpl. lia.
Qed.

Lemma replace_trailingComma_snoc a : replace trailingComma [] (a ++ [comma]) = a.
Proof.
  unfold replace, search.
  assert (H : searchFrom trailingComma 0 (a ++ [comma])
              = Some (0 + length a, 0 + length a + 1 - (0 + length a))).
  { apply searchFrom_first.
    - rewrite length_app. simpl. lia.
    - intros d Hd. rewrite matchAt_trailingComma.
      rewrite drop_app_le by lia.
      destruct (drop d a) as [|c w] eqn:E.
      + apply (f_equal length) in E. rewrite length_drop in E. simpl in E. lia.
      + simpl. destruct (is_comma c); [|done]. cbn [andb].
        rewrite forallb_app. simpl. by rewrite andb_false_r.
    - rewrite matchAt_trailingComma, drop_app_length. simpl. f_equal. }
  rewrite H. replace (0 + length a + 1 - (0 + length a)) with 1 by lia.
  cbn [Nat.add app]. rewrite take_app_length, drop_ge; [by rewrite app_nil_r|].
  rewrite length_app. simpl. lia.
Qed.

Lemma replace_trailingComma_none t :
  trimEnd t = t -> last t <> Some comma -> replace trailingComma [] t = t.
Proof.
  intros Ht Hlast. apply replace_no_match, test_false.
  destruct (search trailingComma t) as [[j n]|] eqn:E; [|done]. exfalso.
  apply searchFrom_Some in E as (d & -> & Hd & Hm).
  rewrite matchAt_trailingComma in Hm.
  destruct (drop d t) as [|c w] eqn:Ed; [done|].
  destruct (is_comma c) eqn:Ec; [|done]. cbn [andb] in Hm.
  destruct (forallb is_space w) eqn:Ew; [|done].
  apply N.eqb_eq in Ec as ->.
  rewrite <- (take_drop d t), Ed in Ht, Hlast.
  destruct (decide (w = [])) as [->|Hw].
  - by rewrite last_snoc in Hlast.
  - destruct (exists_last Hw) as (w0 & c & ->).
    rewrite forallb_app in Ew. simpl in Ew.
    replace (take d t ++ comma :: w0 ++ [c])
      with ((take d t ++ comma :: w0) ++ [c]) in Ht by (by rewrite <- app_assoc).
    apply trimmed_last_not_space in Ht. rewrite Ht in Ew.
    by rewrite andb_false_r in Ew.
Qed.

Lemma trimStart_prefix a x : a <> [] -> trimStart (a ++ x) = a ++ x -> trimStart a = a.
Proof.
  destruct a as [|c a]; [done|]. intros _ H. simpl in H.
  apply trimStart_fixed_cons in H. simpl. by rewrite H.
Qed.

(** The base that [addOptionToken] appends to still holds the token. *)
Lemma tokenIn_base t o :
  o <> [] -> trim o = o -> last o <> Some comma -> trim t = t -> tokenIn t o ->
  tokenIn (trim (replace trailingComma [] t)) o.
Proof.
  intros Hne Ho Hlast Ht Htok. apply trim_fixed in Ht as [Hts Hte].
  apply trim_fixed in Ho as [_ Hoe].
  destruct (decide (last t = Some comma)) as [Hl|Hl].
  - apply last_Some in Hl as [a ->]. rewrite replace_trailingComma_snoc.
    apply tokenIn_drop_comma in Htok; [|done|done].
    pose proof (tokenIn_nonempty _ _ Hne Htok) as Ha.
    unfold trim. rewrite (trimStart_prefix _ _ Ha Hts).
    by apply tokenIn_trimEnd.
  - rewrite replace_trailingComma_none by done.
    unfold trim. rewrite Hts, Hte. done.
Qed.

Lemma addOptionToken_keeps t o o' :
  plainOption o -> hasOptionToken t o = true ->
  hasOptionToken (addOptionToken t o') o = true.
Proof.
  intros (Hne & Ho & Hlast) Hhas. unfold addOptionToken.
  destruct (truthy o'); cbn [negb]; [|by rewrite hasOptionToken_trim].
  destruct (hasOptionToken (trim t) o'); [by rewrite hasOptionToken_trim|].
  apply hasOptionToken_tokenIn in Hhas as [_ Htok].
  destruct (truthy (trim t)) eqn:Et; cbn [negb].
  2:{ apply truthy_false in Et. rewrite Et in Htok.
      by apply tokenIn_nonempty in Htok. }
  pose proof (tokenIn_base (trim t) o Hne Ho Hlast (trim_idem t) Htok) as Hbase.
  set (base := trim (replace trailingComma [] (trim t))) in *.
  assert (Hbne : base <> []) by (by eapply tokenIn_nonempty).
  apply truthy_true in Hbne as Hb. rewrite Hb.
  apply hasOptionToken_tokenIn. split; [done|].
  unfold trim. rewrite trimStart_app; [|apply trimStart_trim|done].
  apply tokenIn_trimEnd; [done|by apply trim_fixed in Ho as [_ ?]|].
  by apply tokenIn_extend.
Qed.

End AddKeeps.

(** X2. Adding an option never loses a token that is there: an option
    without white space around it and without a comma at its end that the
    matcher finds in the text is still found after any option was added. *)
Theorem add_keeps_present_tokens (t o o' : list N) :
  plainOption o -> hasOptionToken t o = true ->
  hasOptionToken (addOptionToken t o') o = true.
Proof. apply addOptionToken_keeps. Qed.

Lemma add_keeps_present_tokens_witness :
  hasOptionToken
    (addOptionToken (lit "massing, proportions, scale,") (lit "brutalist"))
    (lit "massing, proportions, scale") = true.
Proof.
  apply add_keeps_present_tokens.
  - split; [done|]. split; [vm_compute; reflexivity|].
    vm_compute. discriminate.
  - vm_compute. reflexivity.
Defined.

(** ** All / Clear *)

Section SelectAll.

Implicit Types (t o : list N) (opts l : list (list N)) (cat : Category.t).

Lemma length_selectedFrom_le t opts k : length (selectedFrom t opts k) <= length opts.
Proof.
  revert k. induction opts as [|o opts IH]; intros k; simpl; [lia|].
  specialize (IH (S k)). destruct (_ && _); simpl; lia.
Qed.

Lemma length_selectedFrom_all t opts k :
  length (selectedFrom t opts k) = length opts <->
  Forall (fun o => hasOptionToken t o = true) opts.
Proof.
  revert k. induction opts as [|o opts IH]; intros k; simpl.
  - split; [constructor|done].
  - pose proof (length_selectedFrom_le t opts (S k)) as Hle.
    destruct (truthy o && hasOptionToken t o) eqn:E; simpl.
    + apply andb_true_iff in E as [_ E]. rewrite Forall_cons, <- (IH (S k)).
      split; [intros H; split; [done|lia]|intros [_ H]; lia].
    + split; [lia|]. intros [Ho _]%Forall_cons.
      by rewrite Ho, (hasOptionToken_truthy _ _ Ho) in E.
Qed.

Lemma isAllSelected_reconciled cat t :
  isAllSelected (reconcileSelectionFromText cat t) = true <->
  Category.options cat <> []
  /\ Forall (fun o => hasOptionToken t o = true) (Category.options cat).
Proof.
  unfold isAllSelected, reconcileSelectionFromText.
  cbn [Category.selected Category.options].
  rewrite andb_true_iff, Nat.eqb_eq, Nat.ltb_lt, length_selectedFrom_all.
  split; intros [H1 H2].
  - split; [destruct (Category.options cat); [simpl in H2; lia|done]|].
    eapply Forall_impl; [exact H1|]. intros o. cbv beta.
    by rewrite hasOptionToken_trim.
  - split; [|destruct (Category.options cat); simpl; [done|lia]].
    eapply Forall_impl; [exact H2|]. intros o. cbv beta.
    by rewrite hasOptionToken_trim.
Qed.

Lemma foldl_add_keeps l t o :
  plainOption o -> hasOptionToken t o = true ->
  hasOptionToken (foldl addOptionToken t l) o = true.
Proof.
  intros Ho. revert t. induction l as [|o' l IH]; intros t H; [done|].
  simpl. apply IH. by apply addOptionToken_keeps.
Qed.

Lemma foldl_add_all l t :
  Forall plainOption l ->
  Forall (fun o => hasOptionToken (foldl addOptionToken t l) o = true) l.
Proof.
  revert t. induction l as [|o l IH]; intros t Hl; [constructor|].
  apply Forall_cons in Hl as [Ho Hl]. simpl. constructor; [|by apply IH].
  apply foldl_add_keeps; [done|].
  destruct Ho as (Hne & Htrim & _). by apply addOptionToken_present.
Qed.

Lemma filter_truthy_plain l :
  Forall plainOption l -> filter (fun s => truthy s = true) l = l.
Proof.
  induction 1 as [|o l (Hne & _) _ IH]; [done|].
  rewrite filter_cons_True by (by apply truthy_true). by rewrite IH.
Qed.

End SelectAll.

(** X3. For a category whose selection was derived from a text, the All
    button turns into Clear ([isAllSelected]) exactly when the category has
    options and every one of them is a token of the text; so never while one
    of the options is the empty string. *)
Theorem all_selected_means_every_option (cat : Category.t) (t : list N) :
  (isAllSelected (reconcileSelectionFromText cat t) = true <->
   Category.options cat <> []
   /\ Forall (fun o => hasOptionToken t o = true) (Category.options cat))
  /\ ([] ∈ Category.options cat ->
      isAllSelected (reconcileSelectionFromText cat t) = false).
Proof.
  split; [apply isAllSelected_reconciled|].
  intros Hin. apply not_true_is_false.
  intros [_ H]%isAllSelected_reconciled.
  rewrite Forall_forall in H. specialize (H _ Hin).
  by rewrite hasOptionToken_nil_r in H.
Qed.

Lemma all_selected_means_every_option_witness :
  isAllSelected
    (reconcileSelectionFromText
       (Category.mk (lit "c1") (lit "Style") [lit "dark"; []] [])
       (lit "dark")) = false.
Proof.
  apply (proj2 (all_selected_means_every_option
                  (Category.mk (lit "c1") (lit "Style") [lit "dark"; []] [])
                  (lit "dark"))).
  cbn [Category.options]. set_solver.
Defined.

(** X4. Select all ([applyLeftAllClear] with [selectAll] true) on a category
    with at least one option, all without white space around them and without
    a comma at the end: afterwards every option is a token of the text and
    the category counts as all selected; and every such token that was in the
    text before, an option or not, is still in it. *)
Theorem select_all_selects_all (cat : Category.t) (outs : gmap (list N) Output.t) :
  Category.options cat <> [] ->
  Forall plainOption (Category.options cat) ->
  let r := applyLeftAllClear cat true outs in
  isAllSelected r.1 = true
  /\ Forall (fun o => hasOptionToken (outText (Category.id cat) r.2) o = true)
       (Category.options cat)
  /\ (forall o, plainOption o ->
        hasOptionToken (outText (Category.id cat) outs) o = true ->
        hasOptionToken (outText (Category.id cat) r.2) o = true).
Proof.
  intros Hne Hplain. cbv zeta. rewrite applyLeftAllClear_run. cbn [fst snd].
  rewrite filter_truthy_plain by done.
  rewrite outText_commit by apply guarded_push_is_Some, ensure_is_Some.
  split; [|split].
  - apply isAllSelected_reconciled. split; [done|]. by apply foldl_add_all.
  - by apply foldl_add_all.
  - intros o Ho Hhas. by apply foldl_add_keeps.
Qed.

Lemma select_all_selects_all_witness :
  isAllSelected (applyLeftAllClear styleCat true styleOuts).1 = true.
Proof.
  apply (select_all_selects_all styleCat styleOuts).
  - done.
  - unfold styleCat. cbn [Category.options].
    repeat (apply List.Forall_cons;
            [split; [done|]; split; [vm_compute; reflexivity|vm_compute; discriminate]|]).
    apply List.Forall_nil.
Defined.

(** ** The summary *)

Section Summary.

Implicit Types (cats : list Category.t) (outs : gmap (list N) Output.t)
  (blocks : list (list N)) (st : State).

Lemma join_nonempty sp blocks :
  Forall (fun b => b <> [] /\ trim b = b) blocks -> blocks <> [] ->
  join sp blocks <> [] /\ trim (join sp blocks) = join sp blocks.
Proof.
  induction 1 as [|b r [Hb Hbt] Hr IH]; [done|]. intros _.
  destruct r as [|b' r']; [done|].
  destruct (IH ltac:(done)) as [Hne Ht].
  change (join sp (b :: b' :: r')) with (b ++ sp ++ join sp (b' :: r')).
  split; [by destruct b|].
  apply trim_fixed in Hbt as [Hbs _]. apply trim_fixed in Ht as [_ Hte].
  apply trim_fixed. split; [by apply trimStart_app|].
  rewrite app_assoc. by apply trimEnd_app.
Qed.

(** The blocks are the trimmed texts that are not empty, in the order of the
    categories; the loop changes no entry that is there and adds the missing
    ones. *)
Lemma summaryBlocks_spec cats outs :
  (summaryBlocks cats outs).1
  = filter (fun b => b <> []) (map (fun c => trim (outText (Category.id c) outs)) cats)
  /\ (forall i out, outs !! i = Some out -> (summaryBlocks cats outs).2 !! i = Some out)
  /\ (forall i out, (summaryBlocks cats outs).2 !! i = Some out ->
        outs !! i = Some out \/ (outs !! i = None /\ out = emptyOutput
                                 /\ i ∈ Category.id <$> cats))
  /\ (forall c, c ∈ cats -> is_Some ((summaryBlocks cats outs).2 !! Category.id c)).
Proof.
  revert outs. induction cats as [|c r IH]; intros outs.
  - simpl. split; [done|]. split; [done|]. split; [by left|].
    by intros c ?%elem_of_nil.
  - cbn [summaryBlocks].
    destruct (IH (ensureOutputEntry c outs)) as (Hb & Hkeep & Hnew & Hall).
    destruct (summaryBlocks r (ensureOutputEntry c outs)) as [blocks outs'] eqn:E.
    cbn [fst snd] in *. rewrite outText_ensure.
    assert (Hblocks : blocks = filter (fun b => b <> [])
              (map (fun c0 => trim (outText (Category.id c0) outs)) r)).
    { rewrite Hb. f_equal. apply map_ext. intros a. by rewrite outText_ensure. }
    assert (Hsnd : forall (b : bool) (x y : list (list N)),
              (if b then (x, outs') else (y, outs')).2 = outs')
      by (by intros []).
    rewrite fmap_cons.
    split; [|split; [|split]].
    + cbn [map]. destruct (trim (outText (Category.id c) outs)) as [|x b] eqn:Et;
        cbn [truthy negb fst].
      * by rewrite filter_cons_False by (by intros ?).
      * rewrite filter_cons_True by done. by rewrite Hblocks.
    + intros i out Hi. rewrite Hsnd. apply Hkeep.
      unfold ensureOutputEntry. destruct (outs !! Category.id c) eqn:Ec; [done|].
      rewrite lookup_insert_ne; [done|congruence].
    + intros i out Hi. rewrite Hsnd in Hi.
      destruct (Hnew _ _ Hi) as [He|(He & -> & Hin)].
      * unfold ensureOutputEntry in He.
        destruct (outs !! Category.id c) eqn:Ec; [by left|].
        destruct (decide (Category.id c = i)) as [<-|Hne].
        -- rewrite lookup_insert_eq in He. injection He as <-. right.
           split; [done|]. split; [done|]. apply elem_of_cons. by left.
        -- rewrite lookup_insert_ne in He by done. by left.
      * right. unfold ensureOutputEntry in He.
        destruct (outs !! Category.id c) eqn:Ec.
        -- split; [done|]. split; [done|]. apply elem_of_cons. by right.
        -- destruct (decide (Category.id c = i)) as [<-|Hne].
           ++ by rewrite lookup_insert_eq in He.
           ++ rewrite lookup_insert_ne in He by done.
              split; [done|]. split; [done|]. apply elem_of_cons. by right.
    + intros c' Hc'. rewrite Hsnd. apply elem_of_cons in Hc' as [Heq|Hin].
      * subst c'. destruct (ensure_is_Some c outs) as [o Ho].
        by rewrite (Hkeep _ _ Ho).
      * by apply Hall.
Qed.

Lemma buildSummary_unfold st :
  buildSummary st =
  (join [10; 10]%N (summaryBlocks (categories st) (outputsByCatId st)).1,
   mkState (categories st) (summaryBlocks (categories st) (outputsByCatId st)).2).
Proof. unfold buildSummary. by destruct (summaryBlocks _ _). Qed.

Lemma summary_blocks_trimmed cats outs :
  Forall (fun b => b <> [] /\ trim b = b) (summaryBlocks cats outs).1.
Proof.
  destruct (summaryBlocks_spec cats outs) as [-> _].
  apply Forall_forall. intros b [Hb Hin]%list_elem_of_filter.
  split; [done|]. apply list_elem_of_fmap in Hin as (c & -> & _). apply trim_idem.
Qed.

Lemma summary_blocks_nil_iff cats outs :
  (summaryBlocks cats outs).1 = [] <->
  forall c, c ∈ cats -> trim (outText (Category.id c) outs) = [].
Proof.
  destruct (summaryBlocks_spec cats outs) as [-> _]. clear.
  induction cats as [|c r IH]; simpl.
  - split; [by intros _ c ?%elem_of_nil|done].
  - destruct (decide (trim (outText (Category.id c) outs) = [])) as [E|E].
    + rewrite filter_cons_False by (by intros ?). rewrite IH. split.
      * intros H c' [->|Hin]%elem_of_cons; [done|by apply H].
      * intros H c' Hin. apply H. by right.
    + rewrite filter_cons_True by done. split; [done|].
      intros H. exfalso. apply E, H. by left.
Qed.

Lemma summary_empty_iff st :
  (buildSummary st).1 = [] <->
  forall c, c ∈ categories st ->
    trim (outText (Category.id c) (outputsByCatId st)) = [].
Proof.
  rewrite buildSummary_unfold. cbn [fst].
  rewrite <- summary_blocks_nil_iff.
  pose proof (summary_blocks_trimmed (categories st) (outputsByCatId st)) as Htr.
  split.
  - intros Hnil.
    destruct (decide ((summaryBlocks (categories st) (outputsByCatId st)).1 = []))
      as [|Hne]; [done|].
    by destruct (join_nonempty [10; 10]%N _ Htr Hne).
  - by intros ->.
Qed.

Lemma summary_trimmed st : trim (buildSummary st).1 = (buildSummary st).1.
Proof.
  rewrite buildSummary_unfold. cbn [fst].
  pose proof (summary_blocks_trimmed (categories st) (outputsByCatId st)) as Htr.
  destruct (decide ((summaryBlocks (categories st) (outputsByCatId st)).1 = []))
    as [->|Hne]; [done|].
  by destruct (join_nonempty [10; 10]%N _ Htr Hne).
Qed.

End Summary.

(** X5. The summary is already trimmed, and it is empty exactly when the
    text of every category is empty or white space. So Save shows its alert
    and stores nothing exactly in that case, and otherwise the snapshot put
    in front of the log of the day holds the summary itself. *)
Theorem save_rejects_blank_summary (st : State) (random16 : list N) (d : Clock)
    (ls : gmap (list N) (list HistoryEntry.t)) :
  let summary := (buildSummary st).1 in
  let blank := forall c, c ∈ categories st ->
                 trim (outText (Category.id c) (outputsByCatId st)) = [] in
  trim summary = summary
  /\ (summary = [] <-> blank)
  /\ (blank -> saveSnapshot random16 d summary ls = (Some nothingToSave, ls))
  /\ (~ blank ->
      (saveSnapshot random16 d summary ls).1 = None
      /\ HistoryEntry.text <$> head (getHistory d (saveSnapshot random16 d summary ls).2)
         = Some summary).
Proof.
  cbv zeta. split; [apply summary_trimmed|]. split; [apply summary_empty_iff|].
  unfold saveSnapshot. rewrite summary_trimmed. split.
  - intros Hb%summary_empty_iff. by rewrite Hb.
  - intros Hnb. destruct (buildSummary st).1 as [|c s] eqn:E.
    + exfalso. apply Hnb. apply summary_empty_iff. done.
    + cbn [truthy negb fst snd]. split; [done|].
      by rewrite getHistory_setHistory.
Qed.

Lemma save_rejects_blank_summary_witness :
  saveSnapshot (lit "0.8") morning
    (buildSummary (mkState [styleCat] ∅)).1 ∅ = (Some nothingToSave, ∅).
Proof.
  apply (save_rejects_blank_summary (mkState [styleCat] ∅)).
  intros c ->%list_elem_of_singleton. reflexivity.
Defined.

(** X6. [buildSummary] only reads the texts: it leaves the categories and
    every output entry that is there as they are; the entries it adds are
    empty ones of categories that had none, and afterwards every category
    has an entry. *)
Theorem buildSummary_changes_no_text (st : State) :
  let st' := (buildSummary st).2 in
  categories st' = categories st
  /\ (forall i out, outputsByCatId st !! i = Some out ->
        outputsByCatId st' !! i = Some out)
  /\ (forall i out, outputsByCatId st' !! i = Some out ->
        outputsByCatId st !! i = Some out
        \/ (outputsByCatId st !! i = None /\ out = emptyOutput
            /\ i ∈ Category.id <$> categories st))
  /\ (forall c, c ∈ categories st -> is_Some (outputsByCatId st' !! Category.id c)).
Proof.
  cbv zeta. rewrite buildSummary_unfold. cbn [snd categories outputsByCatId].
  split; [done|].
  destruct (summaryBlocks_spec (categories st) (outputsByCatId st)) as (_ & H).
  exact H.
Qed.

(** ** The undo stack *)

Section UndoStack.

Implicit Types (cat c : Category.t) (outs : gmap (list N) Output.t)
  (catId t v prev next : list N) (st : State) (u : list (list N)).

Lemma pushBounded_room u v : length u < 120 -> pushBounded u v = u ++ [v].
Proof.
  intros H. unfold pushBounded.
  destruct (120 <? length (u ++ [v])) eqn:E; [|done].
  apply Nat.ltb_lt in E. rewrite length_app in E. simpl in E. lia.
Qed.

Lemma pushBounded_length u v : length u <= 120 -> length (pushBounded u v) <= 120.
Proof.
  intros H. unfold pushBounded.
  destruct (120 <? length (u ++ [v])) eqn:E.
  - destruct u; simpl in *; rewrite ?length_app in *; simpl in *; lia.
  - apply Nat.ltb_ge in E. done.
Qed.

Lemma undoBounded_ensure cat outs : undoBounded outs -> undoBounded (ensureOutputEntry cat outs).
Proof.
  intros H. unfold ensureOutputEntry.
  destruct (outs !! Category.id cat); [done|].
  apply map_Forall_insert_2; [simpl; lia|done].
Qed.

Lemma undoBounded_pushUndo catId prev outs : undoBounded outs -> undoBounded (pushUndo catId prev outs).
Proof.
  intros H. unfold pushUndo. destruct (outs !! catId) as [out|] eqn:E; [|done].
  apply map_Forall_insert_2; [|done]. cbn [Output.undo].
  apply pushBounded_length. exact (H _ _ E).
Qed.

Lemma undoBounded_commitText catId next outs : undoBounded outs -> undoBounded (commitText catId next outs).
Proof.
  intros H. unfold commitText. destruct (outs !! catId) as [out|] eqn:E; [|done].
  apply map_Forall_insert_2; [|done]. exact (H _ _ E).
Qed.

Lemma undoBounded_initLoop cats outs : undoBounded outs -> undoBounded (initLoop cats outs).2.
Proof.
  revert outs. induction cats as [|c r IH]; intros outs H; simpl; [done|].
  specialize (IH _ (undoBounded_ensure c _ H)).
  by destruct (initLoop r (ensureOutputEntry c outs)).
Qed.

Lemma run_undoBounded a st :
  undoBounded (outputsByCatId st) -> undoBounded (outputsByCatId (run a st)).
Proof.
  intros H. destruct a as [c idx checked|c|c v|c|c|c n l|]; simpl.
  - rewrite toggleOption_unfold.
    destruct (findCat c (categories st)) as [cat|]; [|done].
    cbn [outputsByCatId]. unfold applyLeftToggle.
    destruct (Category.options cat !! idx) as [opt|]; [|by apply undoBounded_ensure].
    destruct (truthy opt); cbn [negb snd]; [|by apply undoBounded_ensure].
    apply undoBounded_commitText.
    destruct (str_eqb _ _); [|apply undoBounded_pushUndo]; by apply undoBounded_ensure.
  - rewrite toggleAll_unfold.
    destruct (findCat c (categories st)) as [cat|]; [|done].
    destruct (_ =? 0); [done|]. cbn [outputsByCatId].
    unfold applyLeftAllClear. cbn [snd]. apply undoBounded_commitText.
    destruct (str_eqb _ _); [|apply undoBounded_pushUndo]; by apply undoBounded_ensure.
  - unfold onTextareaInput.
    destruct (findCat c (categories st)) as [cat|]; [|done].
    destruct (ensureOutputEntry cat (outputsByCatId st) !! c) as [o|] eqn:Eo; [|done].
    pose proof (undoBounded_ensure cat _ H) as He.
    destruct (str_eqb (Output.lastValue o) v) eqn:Ev; cbn [outputsByCatId].
    + apply map_Forall_insert_2; [exact (He _ _ Eo)|done].
    + apply map_Forall_insert_2; [|done]. cbn [Output.undo].
      apply pushBounded_length. exact (He _ _ Eo).
  - unfold clearOutput.
    destruct (findCat c (categories st)) as [cat|]; [|done].
    destruct (outputsByCatId st !! c) as [out|]; [|done].
    cbn [outputsByCatId]. by apply undoBounded_commitText, undoBounded_pushUndo.
  - unfold undoOutput.
    destruct (findCat c (categories st)) as [cat|]; [|done].
    destruct (outputsByCatId st !! c) as [out|] eqn:Eo; [|done].
    destruct (rev (Output.undo out)) as [|prev rest] eqn:Er; [done|].
    cbn [outputsByCatId]. apply map_Forall_insert_2; [|done]. cbn [Output.undo].
    pose proof (H _ _ Eo) as Hl. simpl in Hl.
    rewrite <- (length_rev (Output.undo out)), Er in Hl.
    rewrite length_rev. simpl in Hl. lia.
  - unfold saveBulkModal.
    destruct (findCat c (categories st)) as [cat|]; [|done].
    cbn [outputsByCatId]. by apply undoBounded_ensure.
  - unfold init. pose proof (undoBounded_initLoop (categories st) _ H) as Hi.
    by destruct (initLoop (categories st) (outputsByCatId st)).
Qed.

(** The entry after a gesture that pushes: the new text, and the old text
    pushed onto the stack that was there. *)
Lemma guarded_commit_exact cat next outs :
  let prev := outText (Category.id cat) outs in
  let outs' :=
    commitText (Category.id cat) next
      (if str_eqb next prev then ensureOutputEntry cat outs
       else pushUndo (Category.id cat) prev (ensureOutputEntry cat outs)) in
  outText (Category.id cat) outs' <> prev ->
  outs' !! Category.id cat
  = Some (Output.mk next true
            (pushBounded (Output.undo (default emptyOutput (outs !! Category.id cat)))
               prev) next)
  /\ forall i, i <> Category.id cat -> outs' !! i = outs !! i.
Proof.
  intros prev outs' Hch. subst outs'.
  rewrite outText_commit in Hch by apply guarded_push_is_Some, ensure_is_Some.
  apply str_eqb_neq in Hch. rewrite Hch. split; [apply pushed_then_committed|].
  intros i Hi. rewrite commitText_lookup_ne, pushUndo_lookup_ne by done.
  by apply ensure_lookup_ne.
Qed.

Lemma run_pushes_exact a catId st cat :
  findCat catId (categories st) = Some cat -> lastObserved catId st ->
  pushes a catId st ->
  exists cat1 next,
    findCat catId (categories (run a st)) = Some cat1
    /\ outputsByCatId (run a st) !! catId
       = Some (Output.mk next true (pushBounded (undoOf catId st) (textOf catId st)) next)
    /\ forall i, i <> catId -> outputsByCatId (run a st) !! i = outputsByCatId st !! i.
Proof.
  intros Hfind Hobs Hp. pose proof (findCat_Some _ _ _ Hfind) as [_ Hid].
  destruct a as [c idx checked|c|c v|c| | |]; simpl in Hp; try done;
    destruct Hp as [-> Hp]; simpl; unfold textOf, undoOf in *.
  - rewrite toggleOption_unfold, Hfind in *. cbn [categories outputsByCatId] in *.
    destruct (Category.options cat !! idx) as [opt|] eqn:Hopt;
      [destruct (decide (opt = [])) as [->|Hne]|].
    + rewrite applyLeftToggle_skip in Hp by (intros; congruence).
      cbn [snd] in Hp. by rewrite outText_ensure in Hp.
    + rewrite (applyLeftToggle_run _ _ _ _ _ Hopt Hne) in *. cbn [fst snd] in *.
      rewrite <- Hid in *.
      destruct (guarded_commit_exact cat _ _ Hp) as [H1 H2].
      eexists _, _. split; [by apply findCat_putCat|]. by split.
    + rewrite applyLeftToggle_skip in Hp by (intros; congruence).
      cbn [snd] in Hp. by rewrite outText_ensure in Hp.
  - rewrite toggleAll_unfold, Hfind in *.
    destruct (length (Category.options cat) =? 0); [done|].
    cbn [categories outputsByCatId] in *.
    rewrite applyLeftAllClear_run in *. cbn [fst snd] in *.
    rewrite <- Hid in *.
    destruct (guarded_commit_exact cat _ _ Hp) as [H1 H2].
    eexists _, _. split; [by apply findCat_putCat|]. by split.
  - unfold onTextareaInput in *. rewrite Hfind in *.
    rewrite <- Hid in *. rewrite ensure_lookup in *.
    set (out0 := default emptyOutput (outputsByCatId st !! Category.id cat)) in *.
    assert (Hlast : Output.lastValue out0 = outText (Category.id cat) (outputsByCatId st)).
    { subst out0. unfold outText.
      destruct (outputsByCatId st !! Category.id cat) as [o|] eqn:E; [|done].
      by apply Hobs. }
    destruct (str_eqb (Output.lastValue out0) v) eqn:Ev.
    + apply str_eqb_eq in Ev. cbn [outputsByCatId] in Hp.
      rewrite outText_insert in Hp. cbn [Output.text] in Hp. congruence.
    + cbn [categories outputsByCatId].
      eexists _, v. split; [by apply findCat_putCat|]. split.
      * by rewrite lookup_insert_eq, Hlast.
      * intros i Hi. rewrite lookup_insert_ne by done. by apply ensure_lookup_ne.
  - destruct Hp as [out Hout]. unfold clearOutput. rewrite Hfind, Hout.
    cbn [categories outputsByCatId].
    eexists _, []. split; [by apply findCat_putCat|]. split.
    + rewrite commitText_lookup, pushUndo_lookup, Hout. unfold outText.
      by rewrite Hout.
    + intros i Hi. by rewrite commitText_lookup_ne, pushUndo_lookup_ne.
Qed.

End UndoStack.

(** X7. No handler lets an undo stack grow beyond 120 texts: if no stack is
    longer before a gesture, none is longer after it, along any sequence of
    gestures. *)
Theorem undo_stacks_stay_bounded (l : list action) (st : State) :
  undoBounded (outputsByCatId st) ->
  undoBounded (outputsByCatId (foldl (fun s a => run a s) st l)).
Proof.
  revert st. induction l as [|a l IH]; intros st H; [done|].
  simpl. by apply IH, run_undoBounded.
Qed.

Lemma undo_stacks_stay_bounded_witness :
  undoBounded
    (outputsByCatId
       (foldl (fun s a => run a s) styleState
          [ActToggle (lit "c1") 1 true; ActClear (lit "c1")])).
Proof.
  apply undo_stacks_stay_bounded.
  apply map_Forall_singleton. simpl. lia.
Defined.

(** X8. A gesture that pushes, followed by one undo, gives the entry of the
    category back as it was, undo stack included, when fewer than 120 texts
    were on the stack: only the dirty flag is set. No other entry changes.
    So repeated undos walk back through the gestures one at a time. *)
Theorem undo_restores_entry (a : action) (catId : list N) (st : State)
    (cat : Category.t) :
  findCat catId (categories st) = Some cat ->
  lastObserved catId st ->
  pushes a catId st ->
  length (undoOf catId st) < 120 ->
  outputsByCatId (undoOutput catId (run a st)) !! catId
  = Some (Output.mk (textOf catId st) true (undoOf catId st) (textOf catId st))
  /\ forall i, i <> catId ->
       outputsByCatId (undoOutput catId (run a st)) !! i = outputsByCatId st !! i.
Proof.
  intros Hfind Hobs Hp Hlen.
  destruct (run_pushes_exact a catId st cat Hfind Hobs Hp)
    as (cat1 & next & Hf1 & Hout1 & Hframe).
  assert (Hrev : rev (Output.undo
                        (Output.mk next true
                           (pushBounded (undoOf catId st) (textOf catId st)) next))
                 = textOf catId st :: rev (undoOf catId st)).
  { cbn [Output.undo]. rewrite pushBounded_room by done.
    by rewrite rev_app_distr. }
  rewrite (undoOutput_pop _ _ _ _ _ _ Hf1 Hout1 Hrev). cbn [outputsByCatId].
  rewrite rev_involutive. split; [apply lookup_insert_eq|].
  intros i Hi. rewrite lookup_insert_ne by done. by apply Hframe.
Qed.

Lemma undo_restores_entry_witness :
  outputsByCatId
    (undoOutput (lit "c1") (run (ActToggle (lit "c1") 1 true) styleState))
    !! lit "c1"
  = Some (Output.mk (textOf (lit "c1") styleState) true
            (undoOf (lit "c1") styleState) (textOf (lit "c1") styleState)).
Proof.
  refine (proj1 (undo_restores_entry (ActToggle (lit "c1") 1 true) (lit "c1")
                   styleState styleCat _ _ _ _)).
  - reflexivity.
  - intros out Ho. vm_compute in Ho. injection Ho as <-. reflexivity.
  - split; [reflexivity|]. vm_compute. discriminate.
  - vm_compute. lia.
Defined.

(** ** Categories and their entries *)

Section Entries.

Implicit Types (cat c : Category.t) (cats : list Category.t)
  (outs : gmap (list N) Output.t) (catId i : list N) (st : State).

Lemma ensure_is_Some_inv cat outs i :
  is_Some (ensureOutputEntry cat outs !! i) ->
  is_Some (outs !! i) \/ i = Category.id cat.
Proof.
  unfold ensureOutputEntry. destruct (outs !! Category.id cat) eqn:E; [by left|].
  destruct (decide (Category.id cat = i)) as [<-|Hne]; [by right|].
  rewrite lookup_insert_ne by done. by left.
Qed.

Lemma ensure_keeps cat outs i : is_Some (outs !! i) -> is_Some (ensureOutputEntry cat outs !! i).
Proof.
  intros [o Ho]. unfold ensureOutputEntry.
  destruct (outs !! Category.id cat) eqn:E; [by rewrite Ho|].
  destruct (decide (Category.id cat = i)) as [<-|Hne]; [congruence|].
  rewrite lookup_insert_ne by done. by rewrite Ho.
Qed.

Lemma pushUndo_is_Some_iff catId p outs i :
  is_Some (pushUndo catId p outs !! i) <-> is_Some (outs !! i).
Proof.
  destruct (decide (catId = i)) as [<-|Hne].
  - rewrite pushUndo_lookup. by rewrite fmap_is_Some.
  - by rewrite pushUndo_lookup_ne.
Qed.

Lemma commitText_is_Some_iff catId next outs i :
  is_Some (commitText catId next outs !! i) <-> is_Some (outs !! i).
Proof.
  destruct (decide (catId = i)) as [<-|Hne].
  - rewrite commitText_lookup. by rewrite fmap_is_Some.
  - by rewrite commitText_lookup_ne.
Qed.

Lemma guarded_push_is_Some_iff (b : bool) catId p outs i :
  is_Some ((if b then outs else pushUndo catId p outs) !! i) <-> is_Some (outs !! i).
Proof. destruct b; [done|apply pushUndo_is_Some_iff]. Qed.

Lemma insert_is_Some_iff catId (o : Output.t) outs i :
  is_Some (<[catId := o]> outs !! i) <-> i = catId \/ is_Some (outs !! i).
Proof.
  destruct (decide (catId = i)) as [<-|Hne].
  - rewrite lookup_insert_eq. split; [by left|done].
  - rewrite lookup_insert_ne by done. split; [by right|]. intros [->|?]; done.
Qed.

Lemma initLoop_entries cats outs i :
  is_Some ((initLoop cats outs).2 !! i) <->
  is_Some (outs !! i) \/ i ∈ Category.id <$> cats.
Proof.
  revert outs. induction cats as [|c r IH]; intros outs; cbn [initLoop].
  - cbn [snd]. split; [by left|]. intros [H|H]; [done|]. by apply elem_of_nil in H.
  - specialize (IH (ensureOutputEntry c outs)).
    destruct (initLoop r (ensureOutputEntry c outs)) as [r' outs'].
    cbn [snd] in *. rewrite IH, fmap_cons, elem_of_cons. split.
    + intros [[H| ->]%ensure_is_Some_inv|H]; [by left|right; by left|right; by right].
    + intros [H|[->|H]]; [left; by apply ensure_keeps|left; apply ensure_is_Some|by right].
Qed.

(** The entries after a gesture: none is lost, and a new one belongs to a
    category. *)
Lemma run_entries_keep a st i :
  is_Some (outputsByCatId st !! i) -> is_Some (outputsByCatId (run a st) !! i).
Proof.
  intros H. destruct a as [c idx checked|c|c v|c|c|c n l|]; simpl.
  - rewrite toggleOption_unfold.
    destruct (findCat c (categories st)) as [cat|]; [|done].
    cbn [outputsByCatId]. unfold applyLeftToggle.
    destruct (Category.options cat !! idx) as [opt|]; [|by apply ensure_keeps].
    destruct (truthy opt); cbn [negb snd]; [|by apply ensure_keeps].
    apply commitText_is_Some_iff, guarded_push_is_Some_iff. by apply ensure_keeps.
  - rewrite toggleAll_unfold.
    destruct (findCat c (categories st)) as [cat|]; [|done].
    destruct (_ =? 0); [done|]. cbn [outputsByCatId].
    unfold applyLeftAllClear. cbn [snd].
    apply commitText_is_Some_iff, guarded_push_is_Some_iff. by apply ensure_keeps.
  - unfold onTextareaInput.
    destruct (findCat c (categories st)) as [cat|]; [|done].
    destruct (ensureOutputEntry cat (outputsByCatId st) !! c); [|done].
    destruct (if str_eqb _ _ then _ else _). cbn [outputsByCatId].
    apply insert_is_Some_iff. right. by apply ensure_keeps.
  - unfold clearOutput.
    destruct (findCat c (categories st)) as [cat|]; [|done].
    destruct (outputsByCatId st !! c); [|done]. cbn [outputsByCatId].
    by apply commitText_is_Some_iff, pushUndo_is_Some_iff.
  - unfold undoOutput.
    destruct (findCat c (categories st)) as [cat|]; [|done].
    destruct (outputsByCatId st !! c) as [out|]; [|done].
    destruct (rev (Output.undo out)); [done|]. cbn [outputsByCatId].
    apply insert_is_Some_iff. by right.
  - unfold saveBulkModal.
    destruct (findCat c (categories st)) as [cat|]; [|done].
    cbn [outputsByCatId]. by apply ensure_keeps.
  - unfold init.
    pose proof (proj2 (initLoop_entries (categories st) (outputsByCatId st) i)
                  (or_introl H)) as Hi.
    by destruct (initLoop (categories st) (outputsByCatId st)).
Qed.

Lemma run_entries_new a st i :
  is_Some (outputsByCatId (run a st) !! i) ->
  is_Some (outputsByCatId st !! i) \/ i ∈ Category.id <$> categories st.
Proof.
  assert (Hin : forall (k : list N) cat, findCat k (categories st) = Some cat ->
                  Category.id cat ∈ Category.id <$> categories st).
  { intros k cat [Hc _]%findCat_Some. by apply list_elem_of_fmap_2. }
  destruct a as [c idx checked|c|c v|c|c|c n l|]; simpl.
  - rewrite toggleOption_unfold.
    destruct (findCat c (categories st)) as [cat|] eqn:E; [|by left].
    cbn [outputsByCatId]. unfold applyLeftToggle.
    assert (He : is_Some (ensureOutputEntry cat (outputsByCatId st) !! i) ->
            is_Some (outputsByCatId st !! i) \/ i ∈ Category.id <$> categories st).
    { intros [?| ->]%ensure_is_Some_inv; [by left|right; by eapply Hin]. }
    destruct (Category.options cat !! idx) as [opt|]; [|done].
    destruct (truthy opt); cbn [negb snd]; [|done].
    intros H%commitText_is_Some_iff%guarded_push_is_Some_iff. by apply He.
  - rewrite toggleAll_unfold.
    destruct (findCat c (categories st)) as [cat|] eqn:E; [|by left].
    destruct (_ =? 0); [by left|]. cbn [outputsByCatId].
    unfold applyLeftAllClear. cbn [snd].
    intros H%commitText_is_Some_iff%guarded_push_is_Some_iff.
    apply ensure_is_Some_inv in H as [?| ->]; [by left|right; by eapply Hin].
  - unfold onTextareaInput.
    destruct (findCat c (categories st)) as [cat|] eqn:E; [|by left].
    destruct (ensureOutputEntry cat (outputsByCatId st) !! c); [|by left].
    destruct (if str_eqb _ _ then _ else _). cbn [outputsByCatId].
    pose proof (findCat_Some _ _ _ E) as [_ Hid].
    intros [->|H]%insert_is_Some_iff.
    + right. rewrite <- Hid. by eapply Hin.
    + apply ensure_is_Some_inv in H as [?| ->]; [by left|right; by eapply Hin].
  - unfold clearOutput.
    destruct (findCat c (categories st)) as [cat|]; [|by left].
    destruct (outputsByCatId st !! c); [|by left]. cbn [outputsByCatId].
    intros H%commitText_is_Some_iff%pushUndo_is_Some_iff. by left.
  - unfold undoOutput.
    destruct (findCat c (categories st)) as [cat|]; [|by left].
    destruct (outputsByCatId st !! c) as [out|] eqn:Eo; [|by left].
    destruct (rev (Output.undo out)); [by left|]. cbn [outputsByCatId].
    intros [->|H]%insert_is_Some_iff; left; [by rewrite Eo|done].
  - unfold saveBulkModal.
    destruct (findCat c (categories st)) as [cat|] eqn:E; [|by left].
    cbn [outputsByCatId]. intros [?|H]%ensure_is_Some_inv; [by left|].
    right. cbn [Category.id] in H. subst i. by eapply Hin.
  - unfold init.
    pose proof (initLoop_entries (categories st) (outputsByCatId st) i) as Hi.
    destruct (initLoop (categories st) (outputsByCatId st)). cbn [outputsByCatId].
    apply Hi.
Qed.

Lemma init_allHaveEntries stored defaults outs : allHaveEntries (init stored defaults outs).
Proof.
  unfold init. set (cats := match stored with Some cs => cs | None => _ end).
  clearbody cats.
  pose proof (initLoop_ids cats outs) as Hids.
  pose proof (initLoop_entries cats outs) as Hent.
  destruct (initLoop cats outs) as [cats' outs']. cbn [fst snd] in *.
  intros c Hc. cbn [categories outputsByCatId] in *.
  apply Hent. right. rewrite <- Hids. by apply list_elem_of_fmap_2.
Qed.

Lemma run_allHaveEntries a st : allHaveEntries st -> allHaveEntries (run a st).
Proof.
  intros H c Hc. apply run_entries_keep.
  assert (Category.id c ∈ Category.id <$> categories st) as (c0 & -> & Hc0)%list_elem_of_fmap
    by (rewrite <- (run_ids a st); by apply list_elem_of_fmap_2).
  by apply H.
Qed.

Lemma run_noOrphans a st : noOrphans st -> noOrphans (run a st).
Proof.
  intros H i Hi. rewrite run_ids.
  apply run_entries_new in Hi as [Hi|Hi]; [by apply H|done].
Qed.

End Entries.

(** X9. Startup gives every category an output entry, whatever was stored,
    and every gesture keeps it so; no gesture loses an entry, and none leaves
    an entry that belongs to no category when there was none before. *)
Theorem every_category_keeps_its_entry :
  (forall stored defaults outs, allHaveEntries (init stored defaults outs))
  /\ (forall a st, allHaveEntries st -> allHaveEntries (run a st))
  /\ (forall a st, noOrphans st -> noOrphans (run a st))
  /\ (forall a st i, is_Some (outputsByCatId st !! i) ->
        is_Some (outputsByCatId (run a st) !! i)).
Proof.
  split; [apply init_allHaveEntries|]. split; [apply run_allHaveEntries|].
  split; [apply run_noOrphans|apply run_entries_keep].
Qed.

Lemma every_category_keeps_its_entry_witness :
  allHaveEntries (run (ActInput (lit "c1") (lit "x")) (init None [darkCat] ∅)).
Proof.
  apply (proj1 (proj2 every_category_keeps_its_entry)).
  apply (proj1 every_category_keeps_its_entry).
Defined.

(** ** Adding, deleting and resetting categories *)

Section Manage.

Implicit Types (cat c : Category.t) (cats : list Category.t)
  (outs : gmap (list N) Output.t) (catId i : list N) (st : State).

Lemma ids_filter_NoDup catId cats :
  NoDup (Category.id <$> cats) ->
  NoDup (Category.id <$> filter (fun c => Category.id c <> catId) cats).
Proof.
  intros H. eapply sublist_NoDup; [exact H|].
  apply fmap_sublist, sublist_filter.
Qed.

Lemma outText_delete_ne catId i outs :
  i <> catId -> outText i (delete catId outs) = outText i outs.
Proof. intros Hne. unfold outText. by rewrite lookup_delete_ne. Qed.

Lemma selectionOf_nothing c : Category.selected c = [] -> selectionOf c [].
Proof.
  intros Hsel i. rewrite Hsel. split; [by intros ?%elem_of_nil|].
  intros (o & _ & H). by rewrite hasOptionToken_nil_l in H.
Qed.

End Manage.

(** X10. [deleteCategory] changes nothing when the answer to the question is
    no or no category has the id. Otherwise no category with the id is left
    and neither is its output entry; the other categories stay, in their
    order, and so do the other entries. In every case it keeps unique ids,
    the selection invariant, an entry for every category and no entry
    without a category. *)
Theorem delete_category_removes_entry (catId : list N) (confirmed : bool)
    (st : State) :
  let st' := deleteCategory catId confirmed st in
  (findCat catId (categories st) = None \/ confirmed = false -> st' = st)
  /\ (is_Some (findCat catId (categories st)) -> confirmed = true ->
      categories st' = filter (fun c => Category.id c <> catId) (categories st)
      /\ findCat catId (categories st') = None
      /\ outputsByCatId st' !! catId = None
      /\ forall i, i <> catId -> outputsByCatId st' !! i = outputsByCatId st !! i)
  /\ (uniqueIds st -> uniqueIds st')
  /\ (consistent st -> consistent st')
  /\ (allHaveEntries st -> allHaveEntries st')
  /\ (noOrphans st -> noOrphans st').
Proof.
  cbv zeta. unfold deleteCategory.
  destruct (findCat catId (categories st)) as [cat|] eqn:Hfind;
    [destruct confirmed|]; cbn [negb].
  - split; [by intros [?|?]|]. split; [|split; [|split; [|split]]].
    + intros _ _. cbn [categories outputsByCatId]. split; [done|].
      split; [|split; [apply lookup_delete_eq|by intros; apply lookup_delete_ne]].
      destruct (findCat catId (filter _ (categories st))) as [c|] eqn:E; [|done].
      apply findCat_Some in E as [[Hne _]%list_elem_of_filter Hid]. done.
    + apply ids_filter_NoDup.
    + intros Hc c [Hne Hin]%list_elem_of_filter.
      cbn [outputsByCatId]. rewrite outText_delete_ne by done. by apply Hc.
    + intros Ha c [Hne Hin]%list_elem_of_filter.
      cbn [outputsByCatId]. rewrite lookup_delete_ne by done. by apply Ha.
    + intros Hn i Hi. cbn [categories outputsByCatId] in *.
      destruct (decide (i = catId)) as [->|Hne];
        [by rewrite lookup_delete_eq in Hi|].
      rewrite lookup_delete_ne in Hi by done.
      apply Hn, list_elem_of_fmap in Hi as (c & -> & Hc).
      apply list_elem_of_fmap_2, list_elem_of_filter. done.
  - split; [done|]. split; [done|]. done.
  - split; [done|]. split; [by intros [? ?]|]. done.
Qed.

Lemma delete_category_removes_entry_witness :
  outputsByCatId (deleteCategory (lit "c1") true styleState) !! lit "c1" = None
  /\ consistent (deleteCategory (lit "c1") true styleState).
Proof.
  pose proof (delete_category_removes_entry (lit "c1") true styleState)
    as (_ & Hdel & _ & Hcons & _).
  split.
  - apply Hdel; [by eexists|done].
  - apply Hcons, styleState_consistent.
Defined.

(** X11. [addCategory] changes nothing when the prompt is cancelled or left
    empty. Otherwise the new category comes first, with the id made of the
    random digits, no options, nothing selected and an empty output entry,
    and its name is the trimmed answer or, when that is blank, "New
    Category"; every other entry is untouched. It keeps an entry for every
    category and no entry without a category; when the id is not in use, it
    also keeps the ids unique and the selection invariant. *)
Theorem add_category_starts_empty (answer : option (list N)) (random16 : list N)
    (st : State) :
  let st' := addCategory answer random16 st in
  let id := randomId random16 in
  (answer = None \/ answer = Some [] -> st' = st)
  /\ (forall name, answer = Some name -> name <> [] ->
      categories st'
      = Category.mk id (if truthy (trim name) then trim name else newCategoryName)
          [] [] :: categories st
      /\ outputsByCatId st' !! id = Some emptyOutput
      /\ (forall i, i <> id -> outputsByCatId st' !! i = outputsByCatId st !! i))
  /\ (allHaveEntries st -> allHaveEntries st')
  /\ (noOrphans st -> noOrphans st')
  /\ (id ∉ Category.id <$> categories st ->
      (uniqueIds st -> uniqueIds st') /\ (consistent st -> consistent st')).
Proof.
  cbv zeta. unfold addCategory.
  destruct answer as [[|ch name]|]; cbn [truthy negb].
  - split; [done|]. split; [by intros ? [= <-]|]. done.
  - split; [by intros [?|?]|]. split; [|split; [|split]].
    + intros name' [= <-] _. cbn [categories outputsByCatId].
      split; [done|]. split; [apply lookup_insert_eq|].
      intros i Hi. by rewrite lookup_insert_ne.
    + intros Ha c [->|Hc]%elem_of_cons; cbn [outputsByCatId Category.id].
      * by rewrite lookup_insert_eq.
      * apply insert_is_Some_iff. right. by apply Ha.
    + intros Hn i [->|Hi]%insert_is_Some_iff; cbn [categories];
        rewrite fmap_cons; apply elem_of_cons; [by left|right; by apply Hn].
    + intros Hfresh. split.
      * intros Hu. unfold uniqueIds. cbn [categories]. rewrite fmap_cons.
        by apply NoDup_cons.
      * intros Hc c [->|Hin]%elem_of_cons; cbn [outputsByCatId Category.id].
        -- rewrite outText_insert. by apply selectionOf_nothing.
        -- rewrite outText_insert_ne; [by apply Hc|].
           intros Heq. apply Hfresh. rewrite Heq. by apply list_elem_of_fmap_2.
  - split; [done|]. split; [by intros ? [=]|]. done.
Qed.

Lemma add_category_starts_empty_witness :
  consistent (addCategory (Some (lit "  ")) (lit "0.8") styleState)
  /\ Category.name <$> head (categories (addCategory (Some (lit "  ")) (lit "0.8") styleState))
     = Some newCategoryName.
Proof.
  pose proof (add_category_starts_empty (Some (lit "  ")) (lit "0.8") styleState)
    as (_ & Hnew & _ & _ & Hfresh).
  split.
  - apply Hfresh; [|apply styleState_consistent].
    vm_compute. intros [H|H]%elem_of_cons; [discriminate H|by apply elem_of_nil in H].
  - destruct (Hnew (lit "  ") eq_refl ltac:(done)) as [-> _]. reflexivity.
Defined.

(** X12. [resetDefaults] changes nothing when the answer is no or the
    defaults cannot be loaded. Otherwise the categories are those of the
    defaults, in their order, with their ids, names and options and nothing
    selected, every text is empty and no output entry is left; the selection
    invariant holds. *)
Theorem reset_defaults_clears_outputs (confirmed : bool)
    (defaults : option (list Category.t)) (st : State) :
  let st' := resetDefaults confirmed defaults st in
  (confirmed = false \/ defaults = None -> st' = st)
  /\ (forall cs, confirmed = true -> defaults = Some cs ->
      Category.id <$> categories st' = Category.id <$> cs
      /\ Category.name <$> categories st' = Category.name <$> cs
      /\ Category.options <$> categories st' = Category.options <$> cs
      /\ Forall (fun c => Category.selected c = []) (categories st')
      /\ (forall i, textOf i st' = [] /\ undoOf i st' = [])
      /\ consistent st' /\ noOrphans st').
Proof.
  cbv zeta. unfold resetDefaults. destruct confirmed; cbn [negb].
  - destruct defaults as [cs|].
    + split; [by intros [?|?]|]. intros cs' _ [= <-]. cbn [categories outputsByCatId].
      assert (Hsel : Forall (fun c => Category.selected c = [])
                (map (fun c => Category.mk (Category.id c) (Category.name c)
                                 (Category.options c) []) cs)).
      { apply Forall_forall. by intros c (c0 & -> & _)%list_elem_of_fmap. }
      split; [by rewrite <- list_fmap_compose|].
      split; [by rewrite <- list_fmap_compose|].
      split; [by rewrite <- list_fmap_compose|].
      split; [done|]. split; [done|]. split.
      * intros c Hc. cbn [categories outputsByCatId] in *.
        rewrite Forall_forall in Hsel. by apply selectionOf_nothing, Hsel.
      * intros i Hi. cbn [outputsByCatId] in Hi. rewrite lookup_empty in Hi.
        by destruct Hi.
    + split; [done|]. by intros cs _ [=].
  - split; [done|]. by intros cs [=].
Qed.

Lemma reset_defaults_clears_outputs_witness :
  consistent (resetDefaults true (Some [darkCat]) styleState)
  /\ Category.selected <$> categories (resetDefaults true (Some [darkCat]) styleState)
     = [[]].
Proof.
  pose proof (reset_defaults_clears_outputs true (Some [darkCat]) styleState)
    as [_ H].
  destruct (H [darkCat] eq_refl eq_refl) as (_ & _ & _ & _ & _ & Hc & _).
  split; [exact Hc|reflexivity].
Defined.

(** ** The bulk editor *)

Section Bulk.

Implicit Types (o s cur : list N) (c : N) (l : list (list N))
  (cat : Category.t) (st : State).

Lemma splitLines_step c r cur :
  c <> 10%N -> (c <> 13%N \/ head r <> Some 10%N) ->
  splitLines (c :: r) cur = splitLines r (c :: cur).
Proof.
  intros H10 H13. destruct (decide (c = 13%N)) as [->|Hc].
  - destruct H13 as [?|H13]; [done|]. destruct r as [|c' r]; [done|].
    assert (Hc' : c' <> 10%N) by (intros ->; by apply H13).
    cbn [splitLines].
    destruct c' as [|p]; [done|]. do 4 (destruct p as [p|p|]; try done).
  - cbn [splitLines].
    destruct c as [|p]; [done|]. do 4 (destruct p as [p|p|]; try done).
Qed.

Lemma splitLines_lf r cur : splitLines (10%N :: r) cur = rev cur :: splitLines r [].
Proof. done. Qed.

Lemma splitLines_crlf r cur :
  splitLines (13%N :: 10%N :: r) cur = rev cur :: splitLines r [].
Proof. done. Qed.

Lemma splitLines_end o cur : 10%N ∉ o -> splitLines o cur = [rev cur ++ o].
Proof.
  revert cur. induction o as [|c o IH]; intros cur Ho.
  - by rewrite app_nil_r.
  - apply not_elem_of_cons in Ho as [Hc Ho].
    rewrite splitLines_step; [|done|].
    + rewrite IH by done. cbn [rev]. by rewrite <- app_assoc.
    + right. destruct o as [|c' o]; [done|]. cbn.
      apply not_elem_of_cons in Ho as [Hc' _]. congruence.
Qed.

Lemma splitLines_line o rest cur :
  10%N ∉ o -> last o <> Some 13%N ->
  splitLines (o ++ 10%N :: rest) cur = (rev cur ++ o) :: splitLines rest [].
Proof.
  revert cur. induction o as [|c o IH]; intros cur Ho Hl.
  - by rewrite app_nil_r.
  - apply not_elem_of_cons in Ho as [Hc Ho].
    cbn [app]. rewrite splitLines_step; [|done|].
    + rewrite IH; [|done|].
      * cbn [rev]. by rewrite <- app_assoc.
      * destruct o; [done|]. exact Hl.
    + destruct o as [|c' o].
      * left. intros ->. by apply Hl.
      * right. cbn. apply not_elem_of_cons in Ho as [Hc' _]. congruence.
Qed.

Lemma elem_of_rev c s : c ∈ rev s <-> c ∈ s.
Proof. rewrite !list_elem_of_In. symmetry. apply in_rev. Qed.

Lemma splitLines_no_lf s cur :
  10%N ∉ cur -> Forall (fun x => 10%N ∉ x) (splitLines s cur).
Proof.
  remember (length s) as n eqn:Hn. revert s cur Hn.
  induction n as [n IH] using lt_wf_ind. intros s cur -> Hcur.
  assert (Hrev : 10%N ∉ rev cur) by (by rewrite elem_of_rev).
  destruct s as [|c r]; [by apply Forall_singleton|].
  destruct (decide (c = 10%N)) as [->|Hc].
  { rewrite splitLines_lf. apply Forall_cons. split; [done|].
    eapply IH; [|done|apply not_elem_of_nil]. cbn. lia. }
  destruct (decide (c = 13%N /\ head r = Some 10%N)) as [[-> Hr]|Hno].
  { destruct r as [|c' r]; [done|]. injection Hr as ->.
    rewrite splitLines_crlf. apply Forall_cons. split; [done|].
    eapply IH; [|done|apply not_elem_of_nil]. cbn. lia. }
  rewrite splitLines_step; [|done|].
  - eapply IH; [|done|]; [cbn; lia|]. by apply not_elem_of_cons.
  - destruct (decide (c = 13%N)); [|by left]. right. intros ?. by apply Hno.
Qed.

Lemma elem_of_trimStart c s : c ∈ trimStart s -> c ∈ s.
Proof.
  induction s as [|a s IH]; [done|]. cbn [trimStart].
  destruct (is_space a); [|done]. intros ?. apply elem_of_cons. right. by apply IH.
Qed.

Lemma elem_of_trim c s : c ∈ trim s -> c ∈ s.
Proof.
  unfold trim, trimEnd. rewrite elem_of_rev.
  intros H%elem_of_trimStart. rewrite elem_of_rev in H.
  by apply elem_of_trimStart.
Qed.

Lemma lineOption_last o : lineOption o -> last o <> Some 13%N.
Proof.
  intros (_ & Ht & _) Hl. apply trim_fixed in Ht as [_ Ht].
  destruct (last_Some o 13%N) as [[a ->] _]; [done|].
  by apply trimmed_last_not_space in Ht.
Qed.

(** [split] undoes [join] on lines of the editor. *)
Lemma splitLines_join l :
  Forall lineOption l -> l <> [] -> splitLines (join [10%N] l) [] = l.
Proof.
  induction 1 as [|o l Ho Hl IH]; [done|]. intros _.
  destruct l as [|o' l].
  - cbn [join]. rewrite splitLines_end; [done|]. apply Ho.
  - change (join [10%N] (o :: o' :: l)) with (o ++ 10%N :: join [10%N] (o' :: l)).
    rewrite splitLines_line; [|apply Ho|by apply lineOption_last].
    by rewrite IH.
Qed.

Lemma bulk_lines_join l :
  Forall lineOption l ->
  filter (fun s => truthy s = true) (map trim (splitLines (join [10%N] l) [])) = l.
Proof.
  intros Hl. destruct (decide (l = [])) as [->|Hne]; [done|].
  rewrite splitLines_join by done. clear Hne.
  induction Hl as [|o l (Hne & Ht & _) _ IH]; [done|].
  cbn [map]. rewrite Ht, filter_cons_True; [by rewrite IH|].
  by apply truthy_true.
Qed.

Lemma bulk_lines_normal s :
  Forall lineOption (filter (fun x => truthy x = true) (map trim (splitLines s []))).
Proof.
  apply Forall_forall. intros o [Ho Hin]%list_elem_of_filter.
  apply list_elem_of_fmap in Hin as (y & -> & Hy).
  split; [by apply truthy_true|]. split; [apply trim_idem|].
  intros H%elem_of_trim. revert H.
  pose proof (splitLines_no_lf s [] (not_elem_of_nil _)) as Hall.
  rewrite Forall_forall in Hall. by apply Hall.
Qed.

Lemma putCat_same catId cat cats :
  findCat catId cats = Some cat -> putCat catId cat cats = cats.
Proof.
  induction cats as [|a r IH]; [done|]. cbn [findCat putCat].
  destruct (hasId catId a); [by intros [= ->]|]. intros H. by rewrite IH.
Qed.

End Bulk.

(** X13. [saveBulkModal] changes nothing when no category has the id of the
    modal. Otherwise the category keeps its id and its place; its name is the
    trimmed name field, or the old name when that field is blank; every
    option is not empty, trimmed and without a line feed, whatever was typed
    into the lines field; the selection is derived again from the text for
    the new option list; and no text and no undo stack changes. *)
Theorem bulk_save_normalises_options (catId nameValue linesValue : list N)
    (st : State) :
  let st' := saveBulkModal catId nameValue linesValue st in
  (findCat catId (categories st) = None -> st' = st)
  /\ (forall cat, findCat catId (categories st) = Some cat ->
      exists cat',
        findCat catId (categories st') = Some cat'
        /\ Category.id <$> categories st' = Category.id <$> categories st
        /\ (trim nameValue <> [] -> Category.name cat' = trim nameValue)
        /\ (trim nameValue = [] -> Category.name cat' = Category.name cat)
        /\ Forall lineOption (Category.options cat')
        /\ selectionOf cat' (textOf catId st')
        /\ cat' = reconcileSelectionFromText cat' (textOf catId st')
        /\ forall i, textOf i st' = textOf i st /\ undoOf i st' = undoOf i st).
Proof.
  cbv zeta. unfold saveBulkModal.
  destruct (findCat catId (categories st)) as [cat|] eqn:Hfind; [|done].
  split; [done|]. intros ? [= <-].
  pose proof (findCat_Some _ _ _ Hfind) as [_ Hid].
  eexists. split; [apply findCat_putCat; [by rewrite Hfind|exact Hid]|].
  cbn [categories outputsByCatId Category.id Category.name Category.options
       reconcileSelectionFromText].
  split; [by apply putCat_ids|].
  split; [intros H%truthy_true; by rewrite H|].
  split; [intros H%truthy_false; by rewrite H|].
  split; [apply bulk_lines_normal|].
  assert (Htext : forall i, outText i (ensureOutputEntry
            (Category.mk (Category.id cat)
               (if truthy (trim nameValue) then trim nameValue else Category.name cat)
               (filter (fun s => truthy s = true) (map trim (splitLines linesValue [])))
               (Category.selected cat)) (outputsByCatId st))
          = outText i (outputsByCatId st)).
  { intros i. unfold ensureOutputEntry. cbn [Category.id].
    destruct (outputsByCatId st !! Category.id cat) eqn:E; [done|].
    destruct (decide (i = Category.id cat)) as [->|Hne].
    - rewrite outText_insert. unfold outText. by rewrite E.
    - by rewrite outText_insert_ne. }
  unfold textOf. cbn [outputsByCatId]. rewrite <- Hid.
  split; [|split].
  - rewrite Htext. apply (reconcile_selectionOf (Category.mk _ _ _ _)).
  - unfold reconcileSelectionFromText. cbn [Category.id Category.name
      Category.options Category.selected]. done.
  - intros i. split; [apply Htext|].
    unfold undoOf, ensureOutputEntry. cbn [outputsByCatId Category.id].
    destruct (outputsByCatId st !! Category.id cat) eqn:E; [done|].
    destruct (decide (i = Category.id cat)) as [->|Hne].
    + by rewrite lookup_insert_eq, E.
    + by rewrite lookup_insert_ne.
Qed.

Lemma bulk_save_normalises_options_witness :
  exists cat',
    findCat (lit "c1")
      (categories (saveBulkModal (lit "c1") (lit " ") (lit " a ,b  " ++ 10%N :: lit "  c") styleState))
    = Some cat'
    /\ Category.name cat' = lit "Style"
    /\ Forall lineOption (Category.options cat').
Proof.
  destruct (bulk_save_normalises_options (lit "c1") (lit " ") (lit " a ,b  " ++ 10%N :: lit "  c") styleState) as [_ H].
  destruct (H styleCat eq_refl) as (cat' & Hf & _ & _ & Hname & Hopts & _).
  exists cat'. split; [exact Hf|]. split; [by apply Hname|exact Hopts].
Defined.

(** X14. Opening the bulk editor and saving it as it opened changes nothing:
    for a category that has an output entry, whose options are lines of the
    editor (not empty, trimmed, without a line feed), whose name is trimmed
    or blank and whose selection is the one derived from its text, the state
    after [saveBulkModal] on the two fields that [openBulkModal] filled is
    the state before. *)
Theorem bulk_reopen_save_changes_nothing (catId nameField linesField : list N)
    (st : State) (cat : Category.t) :
  findCat catId (categories st) = Some cat ->
  is_Some (outputsByCatId st !! catId) ->
  Forall lineOption (Category.options cat) ->
  trim (Category.name cat) = Category.name cat \/ trim (Category.name cat) = [] ->
  cat = reconcileSelectionFromText cat (textOf catId st) ->
  openBulkModal catId st = Some (nameField, linesField) ->
  saveBulkModal catId nameField linesField st = st.
Proof.
  intros Hfind [out Hout] Hopts Hname Hsel. unfold openBulkModal, saveBulkModal.
  rewrite Hfind. intros [= <- <-].
  pose proof (findCat_Some _ _ _ Hfind) as [_ Hid].
  rewrite bulk_lines_join by done.
  assert (Hn : (if truthy (trim (Category.name cat)) then trim (Category.name cat)
                else Category.name cat) = Category.name cat).
  { destruct Hname as [->| ->]; [|done]. by destruct (truthy _). }
  rewrite Hn.
  replace (Category.mk (Category.id cat) (Category.name cat)
             (Category.options cat) (Category.selected cat)) with cat
    by (by destruct cat).
  unfold ensureOutputEntry. rewrite Hid, Hout.
  unfold textOf in Hsel. rewrite <- Hsel, putCat_same by done. by destruct st.
Qed.

Lemma bulk_reopen_save_changes_nothing_witness :
  saveBulkModal (lit "c1") (lit "Style")
    (join [10%N] [lit "brutalist"; lit "neo-futurist, glassy"]) styleState
  = styleState.
Proof.
  apply (bulk_reopen_save_changes_nothing _ _ _ _ styleCat).
  - reflexivity.
  - by eexists.
  - repeat (apply List.Forall_cons;
      [split; [done|]; split; [by vm_compute|];
       rewrite list_elem_of_In; vm_compute; intuition discriminate|]).
    apply List.Forall_nil.
  - left. by vm_compute.
  - by vm_compute.
  - reflexivity.
Defined.

(** ** The history of the day *)

Section HistoryFacts.

Implicit Types (d : Clock) (h : HistoryEntry.t) (hist : list HistoryEntry.t)
  (ls : gmap (list N) (list HistoryEntry.t)) (k p x : list N).

Lemma historyLines_cons d h hist :
  historyLines d (h :: hist)
  = historyLines d hist
    ++ [lit "--- " ++ HistoryEntry.time h ++ lit " ---"; HistoryEntry.text h; []].
Proof. unfold historyLines. cbn [rev]. by rewrite foldl_app. Qed.

Lemma startsWith_app p x : startsWith (p ++ x) p = true.
Proof. unfold startsWith. by rewrite eat_app. Qed.

Lemma endsWith_app p x : endsWith (p ++ x) x = true.
Proof. unfold endsWith. rewrite rev_app_distr. apply startsWith_app. Qed.

Lemma endsWith_same_length p x y :
  length x = length y -> endsWith (p ++ x) y = true -> x = y.
Proof.
  unfold endsWith, startsWith. rewrite rev_app_distr. intros Hlen.
  destruct (eat (rev y) (rev x ++ rev p)) as [r|] eqn:E; [|done]. intros _.
  apply eat_Some in E. apply app_inj_1 in E as [E _]; [|by rewrite !length_rev].
  by rewrite <- (rev_involutive x), E, rev_involutive.
Qed.

Lemma historyKey_not_stale d : staleHistoryKey d (historyKey d) = false.
Proof.
  unfold staleHistoryKey, historyKey. rewrite endsWith_app.
  by rewrite andb_false_r.
Qed.

End HistoryFacts.

(** X15. The Delete button of a history item changes nothing when the answer
    is no. Otherwise every item of today's log with the id of the item is
    removed (all of them, when ids repeat), the items with another id stay
    in their order, and the logs of other days are untouched. *)
Theorem delete_history_item_by_id (d : Clock) (hid : list N) (confirmed : bool)
    (ls : gmap (list N) (list HistoryEntry.t)) :
  let ls' := deleteHistoryItem d hid confirmed ls in
  (confirmed = false -> ls' = ls)
  /\ (confirmed = true ->
      (forall h, h ∈ getHistory d ls' <->
                 h ∈ getHistory d ls /\ HistoryEntry.id h <> hid)
      /\ getHistory d ls' `sublist_of` getHistory d ls
      /\ (forall k, k <> historyKey d -> ls' !! k = ls !! k)).
Proof.
  cbv zeta. unfold deleteHistoryItem. destruct confirmed; cbn [negb]; [|done].
  split; [done|]. intros _. rewrite getHistory_setHistory.
  split; [|split].
  - intros h. rewrite list_elem_of_filter. tauto.
  - apply sublist_filter.
  - intros k Hk. unfold setHistory. by rewrite lookup_insert_ne.
Qed.

Lemma delete_history_item_by_id_witness :
  getHistory morning
    (deleteHistoryItem morning (lit "h_8") true
       {[ historyKey morning :=
            [HistoryEntry.mk (lit "h_8") (lit "09:05:07") (lit "b");
             HistoryEntry.mk (lit "h_7") (lit "09:05:06") (lit "a");
             HistoryEntry.mk (lit "h_8") (lit "09:05:05") (lit "c")] ]})
  `sublist_of`
  [HistoryEntry.mk (lit "h_8") (lit "09:05:07") (lit "b");
   HistoryEntry.mk (lit "h_7") (lit "09:05:06") (lit "a");
   HistoryEntry.mk (lit "h_8") (lit "09:05:05") (lit "c")].
Proof.
  destruct (delete_history_item_by_id morning (lit "h_8") true
    {[ historyKey morning :=
         [HistoryEntry.mk (lit "h_8") (lit "09:05:07") (lit "b");
          HistoryEntry.mk (lit "h_7") (lit "09:05:06") (lit "a");
          HistoryEntry.mk (lit "h_8") (lit "09:05:05") (lit "c")] ]})
    as [_ H].
  destruct (H eq_refl) as (_ & Hsub & _).
  unfold getHistory at 2 in Hsub. by rewrite lookup_singleton_eq in Hsub.
Defined.

(** X16. Saving a snapshot and deleting it again gives back the log of the
    day as it was, provided that no item of the log already has the id that
    the save drew. *)
Theorem save_then_delete_restores_log (random16 : list N) (d : Clock)
    (summaryValue : list N) (ls : gmap (list N) (list HistoryEntry.t)) :
  trim summaryValue <> [] ->
  (forall h, h ∈ getHistory d ls ->
             HistoryEntry.id h <> lit "h_" ++ slice_2_10 random16) ->
  getHistory d
    (deleteHistoryItem d (lit "h_" ++ slice_2_10 random16) true
       (saveSnapshot random16 d summaryValue ls).2)
  = getHistory d ls.
Proof.
  intros Hne%truthy_true Hfresh. unfold saveSnapshot, deleteHistoryItem.
  rewrite Hne. cbn [negb snd]. rewrite !getHistory_setHistory.
  rewrite filter_cons_False by (cbn [HistoryEntry.id]; tauto).
  induction (getHistory d ls) as [|h hist IH]; [done|].
  rewrite filter_cons_True by (apply Hfresh; by left).
  f_equal. apply IH. intros h' Hh'. apply Hfresh. by right.
Qed.

Lemma save_then_delete_restores_log_witness :
  getHistory morning
    (deleteHistoryItem morning (lit "h_8") true
       (saveSnapshot (lit "0.8") morning (lit "brutalist") ∅).2)
  = getHistory morning ∅.
Proof.
  apply (save_then_delete_restores_log (lit "0.8") morning (lit "brutalist") ∅).
  - by vm_compute.
  - intros h Hh. unfold getHistory in Hh. rewrite lookup_empty in Hh.
    by apply elem_of_nil in Hh.
Defined.

(** X17. [downloadHistoryTxt] shows its alert, and writes no file, exactly
    when the log of the day is empty, so always after [clearHistory]. After
    a snapshot was saved it writes the file of the day, and the text is the
    text for the log before the save followed by the three lines of the new
    item: the file lists the items oldest first, the log newest first. *)
Theorem download_lists_oldest_first (random16 : list N) (d : Clock)
    (summaryValue : list N) (ls : gmap (list N) (list HistoryEntry.t)) :
  (downloadHistoryTxt d ls = inl noHistory <-> getHistory d ls = [])
  /\ downloadHistoryTxt d (clearHistory d true ls) = inl noHistory
  /\ (trim summaryValue <> [] ->
      downloadHistoryTxt d (saveSnapshot random16 d summaryValue ls).2
      = inr (lit "prompt_mixer_history_" ++ todayKey d ++ lit ".txt",
             join [10%N]
               (historyLines d (getHistory d ls)
                ++ [lit "--- " ++ nowTime d ++ lit " ---";
                    trim summaryValue; []]))).
Proof.
  split; [|split].
  - unfold downloadHistoryTxt. by destruct (getHistory d ls).
  - unfold downloadHistoryTxt, clearHistory. cbn [negb].
    by rewrite getHistory_setHistory.
  - intros Hne%truthy_true. unfold saveSnapshot, downloadHistoryTxt.
    rewrite Hne. cbn [negb snd]. rewrite getHistory_setHistory.
    cbn [length Nat.eqb]. by rewrite historyLines_cons.
Qed.

Lemma download_lists_oldest_first_witness :
  downloadHistoryTxt morning
    (saveSnapshot (lit "0.8") morning (lit "brutalist") ∅).2
  = inr (lit "prompt_mixer_history_2026-11-02.txt",
         join [10%N]
           [lit "2026-11-02" ++ [32; 8212; 32]%N ++ lit "Prompt Mixer history"; [];
            lit "--- 09:05:07 ---"; lit "brutalist"; []]).
Proof.
  destruct (download_lists_oldest_first (lit "0.8") morning (lit "brutalist") ∅)
    as (_ & _ & H).
  rewrite H by (by vm_compute). by vm_compute.
Defined.

(** X18. [clearOldHistory] keeps the log of today and every document whose
    key does not start with the history prefix (the state, the outputs, the
    theme), never adds or changes a document, and removes the log of every
    other day whose key is as long as the key of today. *)
Theorem clear_old_history_keeps_today {V : Type} (d : Clock)
    (ls : gmap (list N) V) :
  clearOldHistory d ls !! historyKey d = ls !! historyKey d
  /\ (forall k, startsWith k (lit "pm_history_") = false ->
       clearOldHistory d ls !! k = ls !! k)
  /\ (forall k v, clearOldHistory d ls !! k = Some v -> ls !! k = Some v)
  /\ (forall d', length (todayKey d') = length (todayKey d) ->
       todayKey d' <> todayKey d ->
       clearOldHistory d ls !! historyKey d' = None).
Proof.
  assert (Hkeep : forall k, staleHistoryKey d k = false ->
            clearOldHistory d ls !! k = ls !! k).
  { intros k Hk. unfold clearOldHistory. destruct (ls !! k) as [v|] eqn:E.
    - by apply map_lookup_filter_Some.
    - apply map_lookup_filter_None. by left. }
  split; [apply Hkeep, historyKey_not_stale|].
  split; [|split].
  - intros k Hk. apply Hkeep. unfold staleHistoryKey. rewrite Hk.
    by rewrite andb_false_r.
  - intros k v. unfold clearOldHistory. by intros [? _]%map_lookup_filter_Some.
  - intros d' Hlen Hne. unfold clearOldHistory. apply map_lookup_filter_None.
    right. intros v _. cbn [fst]. unfold staleHistoryKey, historyKey.
    rewrite startsWith_app.
    destruct (endsWith (lit "pm_history_" ++ todayKey d') (todayKey d)) eqn:E.
    + by apply endsWith_same_length in E.
    + done.
Qed.

Lemma clear_old_history_keeps_today_witness :
  clearOldHistory morning
    ({[ historyKey (mkClock 2026 10 1 23 59 59) := lit "[]" ]}
       : gmap (list N) (list N))
  !! historyKey (mkClock 2026 10 1 23 59 59) = None.
Proof.
  destruct (clear_old_history_keeps_today morning
    ({[ historyKey (mkClock 2026 10 1 23 59 59) := lit "[]" ]}
       : gmap (list N) (list N))) as (_ & _ & _ & H).
  apply H; [reflexivity|]. vm_compute. congruence.
Defined.

(** ** Dates *)

Section DateFacts.

Implicit Types (u : Decimal.uint) (a b : list N) (n : nat).

Lemma digits_inj u u' : digits u = digits u' -> u = u'.
Proof.
  revert u'. induction u as [|u IH|u IH|u IH|u IH|u IH|u IH|u IH|u IH|u IH|u IH];
    intros [|u'|u'|u'|u'|u'|u'|u'|u'|u'|u']; cbn [digits];
    try discriminate; try done; intros [= H]; f_equal; by apply IH.
Qed.

Lemma digits_no_dash u : 45%N ∉ digits u.
Proof.
  induction u; cbn [digits]; [apply not_elem_of_nil|..];
    (apply not_elem_of_cons; split; [done|assumption]).
Qed.

Lemma String_inj n n' : String_ n = String_ n' -> n = n'.
Proof. intros H%digits_inj. by apply Unsigned.to_uint_inj. Qed.

Lemma split_at_first a b a' b' (c : N) :
  c ∉ a -> c ∉ a' -> a ++ c :: b = a' ++ c :: b' -> a = a' /\ b = b'.
Proof.
  revert a'. induction a as [|x a IH]; intros [|x' a'] Ha Ha'; cbn [app].
  - by intros [= ->].
  - intros [= -> _]. apply not_elem_of_cons in Ha' as [? _]. done.
  - intros [= -> _]. apply not_elem_of_cons in Ha as [? _]. done.
  - intros [= -> H]. apply not_elem_of_cons in Ha as [_ Ha].
    apply not_elem_of_cons in Ha' as [_ Ha'].
    destruct (IH a' Ha Ha' H) as [-> ->]. done.
Qed.

Lemma pair_list_inj {A} (x y x' y' : A) : [x; y] = [x'; y'] -> x = x' /\ y = y'.
Proof. by intros [= -> ->]. Qed.

Lemma two_digits_inj n n' :
  n < 100 -> n' < 100 -> padStart2 (String_ n) = padStart2 (String_ n') -> n = n'.
Proof.
  intros Hn Hn'. rewrite !padStart2_digits by done.
  intros [H1 H2]%pair_list_inj. apply Nat2N.inj in H1, H2.
  pose proof (Nat.div_mod_eq n 10). pose proof (Nat.div_mod_eq n' 10). lia.
Qed.

Lemma padStart2_length n : n < 100 -> length (padStart2 (String_ n)) = 2.
Proof. intros Hn. by rewrite padStart2_digits. Qed.

End DateFacts.

(** X19. Different days have different keys: for clock readings with a month
    from 0 to 11 and a day of the month up to 31, [todayKey] gives the same
    string only for the same year, month and day, so the log of one day is
    never read or written as the log of another. *)
Theorem todayKey_injective (d d' : Clock) :
  getMonth d < 12 -> getDate d <= 31 ->
  getMonth d' < 12 -> getDate d' <= 31 ->
  todayKey d = todayKey d' ->
  getFullYear d = getFullYear d' /\ getMonth d = getMonth d'
  /\ getDate d = getDate d'.
Proof.
  intros Hm Hd Hm' Hd'. unfold todayKey. change (lit "-") with [45%N].
  intros H. apply split_at_first in H as [Hy H]; [|apply digits_no_dash..].
  apply String_inj in Hy.
  apply app_inj_1 in H as [Hmm H]; [|rewrite !padStart2_length; lia].
  apply app_inv_head in H.
  apply two_digits_inj in Hmm; [|lia..]. apply two_digits_inj in H; [|lia..].
  lia.
Qed.

Lemma todayKey_injective_witness :
  getFullYear morning = getFullYear (mkClock 2026 10 2 23 59 59)
  /\ getMonth morning = getMonth (mkClock 2026 10 2 23 59 59)
  /\ getDate morning = getDate (mkClock 2026 10 2 23 59 59).
Proof.
  apply (todayKey_injective morning (mkClock 2026 10 2 23 59 59));
    cbn; (lia || reflexivity).
Defined.

(** ** The theme *)

(** X20. Whatever the theme document holds, [getTheme] answers light or
    dark. [toggleTheme] stores the other theme, sets the attribute of the
    page to what it stored, labels the button with the theme that is not
    shown, and touches no other document; toggling twice gives the theme
    back. *)
Theorem theme_toggle_flips (ls : gmap (list N) (list N)) :
  let v := toggleTheme ls in
  (getTheme ls = lit "light" \/ getTheme ls = lit "dark")
  /\ (getTheme ls = lit "dark" <-> getTheme (themeStore v) = lit "light")
  /\ dataTheme v = getTheme (themeStore v)
  /\ (dataTheme v = lit "dark" <-> btnThemeText v = lit "Light")
  /\ (dataTheme v = lit "light" <-> btnThemeText v = lit "Dark")
  /\ (forall k, k <> STORAGE_KEY_THEME -> themeStore v !! k = ls !! k)
  /\ getTheme (themeStore (toggleTheme (themeStore v))) = getTheme ls.
Proof.
  cbv zeta.
  assert (Hcases : getTheme ls = lit "light" \/ getTheme ls = lit "dark").
  { unfold getTheme. destruct (ls !! STORAGE_KEY_THEME) as [t|]; [|by right].
    destruct (str_eqb t (lit "light")) eqn:E1; cbn [orb].
    - apply str_eqb_eq in E1. by left.
    - destruct (str_eqb t (lit "dark")) eqn:E2; [|by right].
      apply str_eqb_eq in E2. by right. }
  assert (Hget : forall t m, t = lit "light" \/ t = lit "dark" ->
            getTheme (<[STORAGE_KEY_THEME := t]> m) = t).
  { intros t m Ht. unfold getTheme. rewrite lookup_insert_eq.
    by destruct Ht as [-> | ->]. }
  split; [exact Hcases|]. unfold toggleTheme, setTheme.
  cbn [themeStore dataTheme btnThemeText].
  destruct Hcases as [-> | ->];
    change (str_eqb (lit "light") (lit "dark")) with false;
    change (str_eqb (lit "dark") (lit "dark")) with true;
    cbn match; rewrite !Hget by auto;
    change (str_eqb (lit "light") (lit "dark")) with false;
    change (str_eqb (lit "dark") (lit "dark")) with true;
    cbn match; rewrite ?Hget by auto;
    (split; [done|]); (split; [done|]); (split; [done|]); (split; [done|]);
    (split; [|done]); intros k Hk; by rewrite lookup_insert_ne.
Qed.

(** ** Escaping an option for a pattern *)

Section EscapeFacts.

Implicit Types (s : list N) (c : N).

Lemma backslash_is_syntax : isSyntaxChar 92%N = true.
Proof. done. Qed.

Lemma not_syntax_not_backslash c : isSyntaxChar c = false -> (c =? 92)%N = false.
Proof.
  intros H. destruct (c =? 92)%N eqn:E; [|done].
  apply N.eqb_eq in E as ->. done.
Qed.

Lemma readLiteral_escapeRegExp s : readLiteral (escapeRegExp s) = Some s.
Proof.
  induction s as [|c s IH]; [done|]. cbn [escapeRegExp].
  destruct (isSyntaxChar c) eqn:E.
  - cbn [readLiteral]. change (92 =? 92)%N with true. cbn match.
    by rewrite E, IH.
  - cbn [readLiteral]. by rewrite (not_syntax_not_backslash c E), E, IH.
Qed.

Lemma escapeRegExp_length s : length s <= length (escapeRegExp s).
Proof.
  induction s as [|c s IH]; [done|]. cbn [escapeRegExp].
  destruct (isSyntaxChar c); cbn [length]; lia.
Qed.

End EscapeFacts.

(** X21. What [escapeRegExp] returns reads back, as the source of a pattern,
    as the literal string it was given: every syntax character has its
    backslash and nothing else has one. Hence two different options never
    get the same pattern, and an option is returned as it is exactly when it
    has no syntax character. *)
Theorem escapeRegExp_reads_back (s : list N) :
  readLiteral (escapeRegExp s) = Some s
  /\ (forall s', escapeRegExp s = escapeRegExp s' -> s = s')
  /\ (escapeRegExp s = s <-> Forall (fun c => isSyntaxChar c = false) s).
Proof.
  split; [apply readLiteral_escapeRegExp|]. split.
  - intros s' H. pose proof (readLiteral_escapeRegExp s) as H1.
    rewrite H, readLiteral_escapeRegExp in H1. by injection H1.
  - split.
    + induction s as [|c s IH]; [constructor|]. cbn [escapeRegExp].
      destruct (isSyntaxChar c) eqn:E.
      * intros H. apply (f_equal length) in H. cbn [length] in H.
        pose proof (escapeRegExp_length s). lia.
      * intros [= H]. constructor; [done|by apply IH].
    + induction 1 as [|c s Hc _ IH]; [done|]. cbn [escapeRegExp].
      by rewrite Hc, IH.
Qed.

(** ** Removing an option that is not there *)

Section RemoveAbsent.

Implicit Types (t o s : list N) (i e : nat).

Lemma atStart_occurs o i s e :
  matchAt (atStart o) i s = Some e -> exists s', s = o ++ s'.
Proof.
  unfold matchAt, atStart. cbn [m]. destruct (i =? 0); [|done].
  destruct (eat o s) as [s'|] eqn:E; [|done]. intros _.
  exists s'. by apply eat_Some.
Qed.

Lemma elsewhere_occurs o i s e :
  matchAt (elsewhere o) i s = Some e -> occursIn o s.
Proof.
  unfold matchAt, elsewhere. cbn [m]. intros (n & Hn & H)%m_reaches.
  cbn [m] in H. destruct (eat o (drop n s)) as [s'|] eqn:E; [|done].
  apply eat_Some in E. exists (take n s), s'.
  by rewrite <- E, take_drop.
Qed.

Lemma occursIn_drop o d t : occursIn o (drop d t) -> occursIn o t.
Proof.
  intros (pre & post & H). exists (take d t ++ pre), post.
  by rewrite <- app_assoc, <- H, take_drop.
Qed.

Lemma test_atStart_absent o t : ~ occursIn o t -> test (atStart o) t = false.
Proof.
  intros Habs. destruct (test (atStart o) t) eqn:E; [|done]. exfalso.
  unfold test, search in E.
  destruct (searchFrom (atStart o) 0 t) as [[j n]|] eqn:Es; [|done].
  apply searchFrom_Some in Es as (d & _ & _ & Hm).
  apply atStart_occurs in Hm as [s' Hs].
  apply Habs, (occursIn_drop o d). by exists [], s'.
Qed.

Lemma test_elsewhere_absent o t : ~ occursIn o t -> test (elsewhere o) t = false.
Proof.
  intros Habs. destruct (test (elsewhere o) t) eqn:E; [|done]. exfalso.
  unfold test, search in E.
  destruct (searchFrom (elsewhere o) 0 t) as [[j n]|] eqn:Es; [|done].
  apply searchFrom_Some in Es as (d & _ & _ & Hm).
  by apply elsewhere_occurs, occursIn_drop in Hm.
Qed.

End RemoveAbsent.

(** X22. Removing an option never damages a text it does not occur in: for a
    text that the tidy-up leaves alone (trimmed, no leading, trailing or
    doubled separator, no run of white space) and an option whose string
    occurs nowhere in it, [removeOptionToken] returns the text as it is, and
    so unchecking that option ([applyLeftToggle] with [checked] false) keeps
    the text and pushes nothing onto the undo stack. *)
Theorem remove_absent_option_keeps_text (t o : list N) :
  tidy t -> ~ occursIn o t ->
  removeOptionToken t o = t
  /\ forall cat idx outs,
       Category.options cat !! idx = Some o ->
       outText (Category.id cat) outs = t ->
       let outs' := (applyLeftToggle cat idx false outs).2 in
       outText (Category.id cat) outs' = t
       /\ Output.undo <$> outs' !! Category.id cat
          = Output.undo <$> ensureOutputEntry cat outs !! Category.id cat.
Proof.
  intros (Ht & Hl & Htr & Hd & Hsp) Habs.
  assert (Hrem : removeOptionToken t o = t).
  { unfold removeOptionToken. rewrite Ht.
    destruct (negb (truthy t) || negb (truthy o)); [done|].
    rewrite (replace_no_match (atStart o)) by (by apply test_atStart_absent).
    rewrite (replaceAll_no_match (elsewhere o)) by (by apply test_elsewhere_absent).
    rewrite (replace_no_match leadingSep), (replace_no_match trailingSep),
      (replaceAll_no_match doubledSep), (replaceAll_no_match spaceRun); done. }
  split; [exact Hrem|]. intros cat idx outs Hidx Htext. cbv zeta.
  assert (Hne : o <> []).
  { intros ->. apply Habs. by exists [], t. }
  assert (He : outText (Category.id cat) (ensureOutputEntry cat outs) = t).
  { rewrite <- Htext. unfold ensureOutputEntry, outText.
    destruct (outs !! Category.id cat) eqn:E; [by rewrite E|].
    by rewrite lookup_insert_eq. }
  unfold applyLeftToggle. rewrite Hidx.
  destruct o as [|c o']; [done|]. cbn [truthy negb snd].
  rewrite He, Hrem. rewrite str_eqb_refl.
  assert (Hs : is_Some (ensureOutputEntry cat outs !! Category.id cat)).
  { unfold ensureOutputEntry. destruct (outs !! Category.id cat) eqn:E.
    - by rewrite E.
    - by rewrite lookup_insert_eq. }
  destruct Hs as [out Hout]. unfold commitText, outText. rewrite Hout.
  by rewrite !lookup_insert_eq.
Qed.

Lemma remove_absent_option_keeps_text_witness :
  removeOptionToken (lit "matte, soft light") (lit "dark") = lit "matte, soft light".
Proof.
  refine (proj1 (remove_absent_option_keeps_text (lit "matte, soft light")
                   (lit "dark") _ _)).
  - by vm_compute.
  - intros (pre & post & H).
    assert (Hin : 100%N ∈ lit "matte, soft light").
    { rewrite H. apply elem_of_app. right. apply elem_of_app. left.
      apply list_elem_of_In. vm_compute. tauto. }
    apply list_elem_of_In in Hin. vm_compute in Hin. intuition discriminate.
Defined.
